(** * Hugging: the photo-ingestion and generation-request pipeline of [App.tsx]

    A shallow embedding of the [App] component of [src/App.tsx]: the
    data-URL parser inside [fileToBase64], the two event handlers
    [handleFileChange] and [handleGenerateClick], the [disabled] attribute of
    the button and the four conditional blocks of the result panel.

    JavaScript strings are sequences of UTF-16 code units; they are modelled
    as lists of numbers so that the regular expression's [.], which excludes
    the four line terminators U+000A, U+000D, U+2028 and U+2029, is modelled
    exactly. *)

From Stdlib Require Import List Arith NArith Bool Lia String Ascii.
From Stdlib.Strings Require Import Byte.
From ExtLib Require Import Structures.Monad Structures.MonadExc.
Import ListNotations.
Import MonadNotation.
Local Open Scope monad_scope.

(** ** JavaScript strings *)

Definition code_unit := N.
Definition jsstring := list code_unit.

(** A string literal of the source, as code units. *)
Definition str (s : string) : jsstring :=
  List.map N_of_ascii (list_ascii_of_string s).

Definition comma : code_unit := 44%N.
Definition colon : code_unit := 58%N.
Definition semicolon : code_unit := 59%N.

(** JavaScript truthiness of a [string | null | undefined] value: [null],
    [undefined] and the empty string are falsy. *)
Definition truthy (v : option jsstring) : bool :=
  match v with
  | Some (_ :: _) => true
  | _ => false
  end.

(** [s.split(',')]: the segments between commas, in order; the empty string
    gives one empty segment, so the result is never empty. *)
Fixpoint split (s : jsstring) : list jsstring :=
  match s with
  | [] => [[]]
  | c :: s' =>
      if N.eqb c comma then [] :: split s'
      else match split s' with
           | seg :: rest => (c :: seg) :: rest
           | [] => [[c]]
           end
  end.

(** The characters [.] matches when the [s] flag is absent: every code unit
    but the line terminators. *)
Definition line_terminator (c : code_unit) : bool :=
  N.eqb c 10 || N.eqb c 13 || N.eqb c 8232 || N.eqb c 8233.

Definition dot (c : code_unit) : bool := negb (line_terminator c).

(** [(.*?);] anchored at the head of [s]: the lazy quantifier tries the
    semicolon before it consumes one more character.  Returns the text
    captured by the group. *)
Fixpoint lazy_until_semicolon (s : jsstring) : option jsstring :=
  match s with
  | [] => None
  | c :: s' =>
      if N.eqb c semicolon then Some []
      else if dot c then option_map (cons c) (lazy_until_semicolon s')
      else None
  end.

(** [header.match(/:(.*?);/)]: the leftmost start position at which the
    pattern matches; the result is capture group 1 ([mimeTypeMatch[1]]), and
    [None] stands for the [null] of a failed match. *)
Fixpoint regexp_match (header : jsstring) : option jsstring :=
  match header with
  | [] => None
  | c :: rest =>
      if N.eqb c colon then
        match lazy_until_semicolon rest with
        | Some group => Some group
        | None => regexp_match rest
        end
      else regexp_match rest
  end.

(** ** [types.ts] and the values promises settle with *)

(** Modelled from the spec: [ImageData] is declared in [./types], which is
    not among the sources; it is the spec's EncodedImage, a media type and a
    payload, with the field names [fileToBase64] builds it with:
    [resolve({ mimeType, data })]. *)
Record ImageData : Type := { mimeType : jsstring; data : jsstring }.

(** What a promise of this program can be rejected with: an [Error] made by
    [new Error(message)], the event handed to [reader.onerror], or whatever
    the generation service rejects with. *)
Inductive Exn : Type :=
| Error (message : jsstring)
| ReaderErrorEvent
| ServiceRejection (reason : jsstring).

Inductive Settled (A : Type) : Type :=
| Resolve (value : A)
| Reject (reason : Exn).
Arguments Resolve {A} value.
Arguments Reject {A} reason.

Definition invalid_file_format : Exn := Error (str "Invalid file format").
Definition no_mime_type : Exn := Error (str "Could not determine MIME type").

(** ** [fileToBase64]: the [reader.onload] callback

    [result] is [reader.result]; the value returned is what the promise is
    settled with. Destructuring [[header, data]] takes elements 0 and 1 of
    the array and gives [undefined] for a missing one. *)
Definition fileToBase64_onload (result : jsstring) : Settled ImageData :=
  let parts := split result in
  let header := nth_error parts 0 in
  let data := nth_error parts 1 in
  if negb (truthy header) || negb (truthy data) then Reject invalid_file_format
  else
    match header, data with
    | Some header, Some data =>
        let mimeTypeMatch := regexp_match header in
        match mimeTypeMatch with
        | None => Reject no_mime_type
        | Some group =>
            if negb (truthy (Some group)) then Reject no_mime_type
            else Resolve {| mimeType := group; data := data |}
        end
    | _, _ => Reject invalid_file_format
    end.

(** ** The browser's side: files and file reads *)

(** A [File] picked in an [<input type="file">]: its name, its [type]
    attribute and its content. *)
Record File : Type := {
  file_name : jsstring;
  file_type : jsstring;
  file_bytes : list byte
}.

(** How a [FileReader] ends a read: [onload] with [reader.result], or
    [onerror]. *)
Inductive ReadOutcome : Type :=
| Loaded (result : jsstring)
| ReadFailed.

(** ** Component state: the seven [useState] cells of [App] *)

Record AppState : Type := {
  childPhoto : option File;
  adultPhoto : option File;
  childPhotoPreview : option jsstring;
  adultPhotoPreview : option jsstring;
  generatedImage : option jsstring;
  isLoading : bool;
  error : option jsstring
}.

Definition initial_state : AppState :=
  {| childPhoto := None; adultPhoto := None;
     childPhotoPreview := None; adultPhotoPreview := None;
     generatedImage := None; isLoading := false; error := None |}.

(** A state setter returned by [useState]. *)
Definition Dispatch (A : Type) : Type := A -> AppState -> AppState.

Definition setChildPhoto : Dispatch (option File) := fun v s =>
  {| childPhoto := v; adultPhoto := adultPhoto s;
     childPhotoPreview := childPhotoPreview s;
     adultPhotoPreview := adultPhotoPreview s;
     generatedImage := generatedImage s; isLoading := isLoading s;
     error := error s |}.

Definition setAdultPhoto : Dispatch (option File) := fun v s =>
  {| childPhoto := childPhoto s; adultPhoto := v;
     childPhotoPreview := childPhotoPreview s;
     adultPhotoPreview := adultPhotoPreview s;
     generatedImage := generatedImage s; isLoading := isLoading s;
     error := error s |}.

Definition setChildPhotoPreview : Dispatch (option jsstring) := fun v s =>
  {| childPhoto := childPhoto s; adultPhoto := adultPhoto s;
     childPhotoPreview := v;
     adultPhotoPreview := adultPhotoPreview s;
     generatedImage := generatedImage s; isLoading := isLoading s;
     error := error s |}.

Definition setAdultPhotoPreview : Dispatch (option jsstring) := fun v s =>
  {| childPhoto := childPhoto s; adultPhoto := adultPhoto s;
     childPhotoPreview := childPhotoPreview s;
     adultPhotoPreview := v;
     generatedImage := generatedImage s; isLoading := isLoading s;
     error := error s |}.

Definition setGeneratedImage : Dispatch (option jsstring) := fun v s =>
  {| childPhoto := childPhoto s; adultPhoto := adultPhoto s;
     childPhotoPreview := childPhotoPreview s;
     adultPhotoPreview := adultPhotoPreview s;
     generatedImage := v; isLoading := isLoading s;
     error := error s |}.

Definition setIsLoading : Dispatch bool := fun v s =>
  {| childPhoto := childPhoto s; adultPhoto := adultPhoto s;
     childPhotoPreview := childPhotoPreview s;
     adultPhotoPreview := adultPhotoPreview s;
     generatedImage := generatedImage s; isLoading := v;
     error := error s |}.

Definition setError : Dispatch (option jsstring) := fun v s =>
  {| childPhoto := childPhoto s; adultPhoto := adultPhoto s;
     childPhotoPreview := childPhotoPreview s;
     adultPhotoPreview := adultPhotoPreview s;
     generatedImage := generatedImage s; isLoading := isLoading s;
     error := v |}.

(** ** Asynchronous code

    An [async] function body as a tree: synchronous statements (a state
    setter call, [console.error]), [throw], and the two places where this
    program suspends, each with the continuation that runs when the browser
    or the service answers. *)
Inductive Async (A : Type) : Type :=
| Ret (a : A)
| Throw (e : Exn)
| Update (u : AppState -> AppState) (k : Async A)
| ConsoleError (e : Exn) (k : Async A)
| AwaitRead (file : File) (k : ReadOutcome -> Async A)
| AwaitGenerate (child adult : ImageData) (k : Settled jsstring -> Async A).
Arguments Ret {A} a.
Arguments Throw {A} e.
Arguments Update {A} u k.
Arguments ConsoleError {A} e k.
Arguments AwaitRead {A} file k.
Arguments AwaitGenerate {A} child adult k.

Fixpoint bind_async {A B : Type} (p : Async A) (f : A -> Async B) : Async B :=
  match p with
  | Ret a => f a
  | Throw e => Throw e
  | Update u k => Update u (bind_async k f)
  | ConsoleError e k => ConsoleError e (bind_async k f)
  | AwaitRead file k => AwaitRead file (fun r => bind_async (k r) f)
  | AwaitGenerate c a k => AwaitGenerate c a (fun r => bind_async (k r) f)
  end.

(** [try { body } catch (e) { handler e }] *)
Fixpoint try_catch {A : Type} (body : Async A) (handler : Exn -> Async A)
  : Async A :=
  match body with
  | Ret a => Ret a
  | Throw e => handler e
  | Update u k => Update u (try_catch k handler)
  | ConsoleError e k => ConsoleError e (try_catch k handler)
  | AwaitRead file k => AwaitRead file (fun r => try_catch (k r) handler)
  | AwaitGenerate c a k =>
      AwaitGenerate c a (fun r => try_catch (k r) handler)
  end.

(** [try { body } finally { final }]: [final] runs on both exits, and the
    exit of [body] is kept when [final] completes normally. *)
Fixpoint try_finally {A : Type} (body : Async A) (final : Async unit)
  : Async A :=
  match body with
  | Ret a => bind_async final (fun _ => Ret a)
  | Throw e => bind_async final (fun _ => Throw e)
  | Update u k => Update u (try_finally k final)
  | ConsoleError e k => ConsoleError e (try_finally k final)
  | AwaitRead file k => AwaitRead file (fun r => try_finally (k r) final)
  | AwaitGenerate c a k =>
      AwaitGenerate c a (fun r => try_finally (k r) final)
  end.

#[global] Instance Monad_Async : Monad Async :=
  {| ret := @Ret; bind := @bind_async |}.

#[global] Instance Exception_Async : MonadExc Exn Async :=
  {| raise := @Throw; catch := @try_catch |}.

(** [try { body } catch (e) { handler e } finally { final }] *)
Definition try_catch_finally {A : Type} (body : Async A)
  (handler : Exn -> Async A) (final : Async unit) : Async A :=
  try_finally (catch body handler) final.

(** A call of a state setter, as a statement. *)
Definition call {A : Type} (setter : Dispatch A) (v : A) : Async unit :=
  Update (setter v) (Ret tt).

Definition console_error (e : Exn) : Async unit := ConsoleError e (Ret tt).

(** [await p] for the promise a settled value stands for. *)
Definition await {A : Type} (p : Settled A) : Async A :=
  match p with
  | Resolve v => ret v
  | Reject e => raise e
  end.

(** Modelled from the spec: [generateHuggingImage(child, adult)] is imported
    from [./services/geminiService], which is not among the sources; the
    spec's Generation Client takes the two images, child first, issues one
    request, and resolves with an image reference or rejects. *)
Definition generateHuggingImage (child adult : ImageData) : Async jsstring :=
  AwaitGenerate child adult await.

(** ** [fileToBase64]

    [reader.readAsDataURL(file)] starts the read; [onload] settles the
    promise through [fileToBase64_onload], [onerror] rejects it with the
    event. *)
Definition fileToBase64_settled (outcome : ReadOutcome) : Settled ImageData :=
  match outcome with
  | Loaded result => fileToBase64_onload result
  | ReadFailed => Reject ReaderErrorEvent
  end.

Definition fileToBase64 (file : File) : Async ImageData :=
  AwaitRead file (fun outcome => await (fileToBase64_settled outcome)).

(** ** [handleFileChange] and [ImageUploader]'s [handleInputChange] *)

Definition handleFileChange (setter : Dispatch (option File))
  (previewSetter : Dispatch (option jsstring))
  (createObjectURL : File -> jsstring) (file : File)
  : AppState -> AppState :=
  fun s => previewSetter (Some (createObjectURL file)) (setter (Some file) s).

(** [event.target.files] is a [FileList] or [null]; the callback runs only
    when the list has a first element. *)
Definition handleInputChange (onFileChange : File -> AppState -> AppState)
  (files : option (list File)) : AppState -> AppState :=
  match files with
  | Some (file :: _) => onFileChange file
  | _ => fun s => s
  end.

(** ** [handleGenerateClick] *)

Definition missing_photos_message : jsstring :=
  str "Please upload both photos before generating.".
Definition generation_failed_message : jsstring :=
  str "Failed to generate the image. Please try again.".

(** The closure is rebuilt whenever [childPhoto] or [adultPhoto] changes
    (the dependency list of [useCallback]), so the two arguments are the
    photos of the state current at the call. *)
Definition handleGenerateClick (childPhoto adultPhoto : option File)
  : Async unit :=
  match childPhoto, adultPhoto with
  | Some childPhoto, Some adultPhoto =>
      call setIsLoading true ;;
      call setError None ;;
      call setGeneratedImage None ;;
      try_catch_finally
        (childPhotoData <- fileToBase64 childPhoto ;;
         adultPhotoData <- fileToBase64 adultPhoto ;;
         imageUrl <- generateHuggingImage childPhotoData adultPhotoData ;;
         call setGeneratedImage (Some imageUrl))
        (fun e =>
           console_error e ;;
           call setError (Some generation_failed_message))
        (call setIsLoading false)
  | _, _ =>
      call setError (Some missing_photos_message)
  end.

(** ** What is rendered *)

(** [disabled={!childPhoto || !adultPhoto || isLoading}] of the button. *)
Definition button_disabled (s : AppState) : bool :=
  match childPhoto s, adultPhoto s with
  | Some _, Some _ => isLoading s
  | _, _ => true
  end.

Inductive Panel : Type :=
| LoadingSpinner
| ErrorText (message : jsstring)
| GeneratedImagePanel (src : jsstring)
| Placeholder.

Definition when (b : bool) (p : Panel) : list Panel := if b then [p] else [].

(** The four conditional blocks of the result panel, in source order. *)
Definition render_result (s : AppState) : list Panel :=
  when (isLoading s) LoadingSpinner
  ++ match error s with
     | Some (c :: m) => [ErrorText (c :: m)]
     | _ => []
     end
  ++ match generatedImage s with
     | Some (c :: g) =>
         when (negb (isLoading s) && negb (truthy (error s)))
              (GeneratedImagePanel (c :: g))
     | _ => []
     end
  ++ when (negb (isLoading s) && negb (truthy (error s))
           && negb (truthy (generatedImage s))) Placeholder.

(** ** Running the component

    What a run leaves behind: every state written by a setter call, every
    call that leaves the component, and every [console.error]. *)
Inductive Effect : Type :=
| Wrote (s : AppState)
| ReadAsDataURL (file : File)
| GenerateHuggingImage (child adult : ImageData)
| Logged (e : Exn).

(** The synchronous run of [p] from state [s], up to its end or its next
    suspension: the state reached, the effects in order, and the suspended
    program if there is one. *)
Fixpoint run_sync (p : Async unit) (s : AppState)
  : AppState * list Effect * option (Async unit) :=
  match p with
  | Ret _ => (s, [], None)
  | Throw _ => (s, [], None)
  | Update u k =>
      let '(s', effects, rest) := run_sync k (u s) in
      (s', Wrote (u s) :: effects, rest)
  | ConsoleError e k =>
      let '(s', effects, rest) := run_sync k s in
      (s', Logged e :: effects, rest)
  | AwaitRead file _ => (s, [ReadAsDataURL file], Some p)
  | AwaitGenerate c a _ => (s, [GenerateHuggingImage c a], Some p)
  end.

(** An answer from outside the component. *)
Inductive Response : Type :=
| FileRead (outcome : ReadOutcome)
| ServiceAnswer (outcome : Settled jsstring).

(** The continuation of a suspended program for an answer of the kind it
    waits for. *)
Definition resume (p : Async unit) (r : Response) : option (Async unit) :=
  match p, r with
  | AwaitRead _ k, FileRead outcome => Some (k outcome)
  | AwaitGenerate _ _ k, ServiceAnswer outcome => Some (k outcome)
  | _, _ => None
  end.

Inductive Slot : Type := ChildSlot | AdultSlot.

(** [onFileChange] of the two uploaders. *)
Definition onFileChange (slot : Slot) (createObjectURL : File -> jsstring)
  : File -> AppState -> AppState :=
  match slot with
  | ChildSlot => handleFileChange setChildPhoto setChildPhotoPreview createObjectURL
  | AdultSlot => handleFileChange setAdultPhoto setAdultPhotoPreview createObjectURL
  end.

(** The whole component between two events: its state, the attempts that
    are suspended, and the effects so far. The state is the one rendered:
    the setter calls of one synchronous run take effect together. *)
Record Config : Type := {
  app : AppState;
  pending : list (Async unit);
  trace : list Effect
}.

Definition initial_config : Config :=
  {| app := initial_state; pending := []; trace := [] |}.

Inductive Event : Type :=
| InputChange (slot : Slot) (files : option (list File))
    (createObjectURL : File -> jsstring)
| ButtonClick
| Invoke
| Settle (i : nat) (r : Response).

(** Start [handleGenerateClick] with the photos of the current state. *)
Definition start_generate (c : Config) : Config :=
  let '(s', effects, rest) :=
    run_sync (handleGenerateClick (childPhoto (app c)) (adultPhoto (app c)))
             (app c) in
  {| app := s';
     pending := pending c ++ match rest with Some p => [p] | None => [] end;
     trace := trace c ++ effects |}.

Fixpoint replace_nth {A : Type} (i : nat) (l : list A) (x : option A) : list A :=
  match l, i with
  | [], _ => []
  | _ :: l', O => match x with Some y => y :: l' | None => l' end
  | a :: l', S i' => a :: replace_nth i' l' x
  end.

(** One event:
    - a change event of an uploader's [<input>];
    - a click on the button, which a disabled button ignores;
    - a direct call of [handleGenerateClick], as a test harness makes it;
    - an answer to the [i]-th suspended attempt, which then runs to its
      next suspension or to its end. An answer nobody waits for changes
      nothing. *)
Definition step (c : Config) (e : Event) : Config :=
  match e with
  | InputChange slot files createObjectURL =>
      {| app := handleInputChange (onFileChange slot createObjectURL) files (app c);
         pending := pending c;
         trace := trace c |}
  | ButtonClick =>
      if button_disabled (app c) then c else start_generate c
  | Invoke => start_generate c
  | Settle i r =>
      match nth_error (pending c) i with
      | Some p =>
          match resume p r with
          | Some k =>
              let '(s', effects, rest) := run_sync k (app c) in
              {| app := s';
                 pending := replace_nth i (pending c) rest;
                 trace := trace c ++ effects |}
          | None => c
          end
      | None => c
      end
  end.

Definition run (c : Config) (events : list Event) : Config :=
  fold_left step events c.

(** Events of the running page: everything but a direct call of the
    handler. *)
Definition from_page (e : Event) : bool :=
  match e with
  | Invoke => false
  | _ => true
  end.

(** ** Data URLs

    [FileReader.readAsDataURL] and base64 belong to the browser, not to the
    source. The spec has the read produce "a data-URI-style string" whose
    payload "is a base64 encoding of the raw bytes" and whose header carries
    the MIME type: the string [data:<type>;base64,<payload>] of RFC 2397,
    with the alphabet and the [=] padding of RFC 4648. *)

(** Modelled from the spec: the base64 alphabet of RFC 4648. *)
Definition base64_alphabet : jsstring :=
  str "ABCDEFGHIJKLMNOPQRSTUVWXYZabcdefghijklmnopqrstuvwxyz0123456789+/".

Definition base64_char (sextet : N) : code_unit :=
  nth (N.to_nat sextet) base64_alphabet 0%N.

Definition base64_pad : code_unit := 61%N.

(** Modelled from the spec: the base64 encoding the browser puts in a data
    URL: three bytes give four characters, and a last group of one or two
    bytes is padded with [=]. *)
Fixpoint base64_encode (bytes : list byte) : jsstring :=
  match bytes with
  | [] => []
  | [a] =>
      let x := Byte.to_N a in
      [base64_char (x / 4); base64_char (x mod 4 * 16); base64_pad; base64_pad]
  | [a; b] =>
      let x := Byte.to_N a in
      let y := Byte.to_N b in
      [base64_char (x / 4); base64_char (x mod 4 * 16 + y / 16);
       base64_char (y mod 16 * 4); base64_pad]
  | a :: b :: c :: rest =>
      let x := Byte.to_N a in
      let y := Byte.to_N b in
      let z := Byte.to_N c in
      base64_char (x / 4) :: base64_char (x mod 4 * 16 + y / 16)
      :: base64_char (y mod 16 * 4 + z / 64) :: base64_char (z mod 64)
      :: base64_encode rest
  end%N.

Definition base64_value (c : code_unit) : option N :=
  (if (65 <=? c) && (c <=? 90) then Some (c - 65)
   else if (97 <=? c) && (c <=? 122) then Some (c - 71)
   else if (48 <=? c) && (c <=? 57) then Some (c + 4)
   else if c =? 43 then Some 62
   else if c =? 47 then Some 63
   else None)%N.

Definition is_nil {A : Type} (l : list A) : bool :=
  match l with [] => true | _ => false end.

(** Modelled from the spec: base64 decoding, the "decoded" of the spec's
    round-trip law; [None] for a string that is not padded base64. *)
Fixpoint base64_decode (s : jsstring) : option (list byte) :=
  match s with
  | [] => Some []
  | c1 :: c2 :: c3 :: c4 :: rest =>
      match base64_value c1, base64_value c2 with
      | Some v1, Some v2 =>
          if N.eqb c3 base64_pad then
            if N.eqb c4 base64_pad && is_nil rest
            then option_map (fun a => [a]) (Byte.of_N (v1 * 4 + v2 / 16))
            else None
          else
            match base64_value c3 with
            | Some v3 =>
                if N.eqb c4 base64_pad then
                  if is_nil rest then
                    match Byte.of_N (v1 * 4 + v2 / 16),
                          Byte.of_N (v2 mod 16 * 16 + v3 / 4) with
                    | Some a, Some b => Some [a; b]
                    | _, _ => None
                    end
                  else None
                else
                  match base64_value c4, base64_decode rest with
                  | Some v4, Some tail =>
                      match Byte.of_N (v1 * 4 + v2 / 16),
                            Byte.of_N (v2 mod 16 * 16 + v3 / 4),
                            Byte.of_N (v3 mod 4 * 64 + v4) with
                      | Some a, Some b, Some c => Some (a :: b :: c :: tail)
                      | _, _, _ => None
                      end
                  | _, _ => None
                  end
            | None => None
            end
      | _, _ => None
      end
  | _ => None
  end%N.

(** Modelled from the spec: [reader.result] after [readAsDataURL(file)] has
    loaded, the data URL of the file's type and content. *)
Definition data_url (file : File) : jsstring :=
  str "data:" ++ file_type file ++ str ";base64," ++ base64_encode (file_bytes file).

(** ** The vocabulary of the specification *)

(** The text before the first comma, and the text after it if there is
    one. *)
Fixpoint before_comma (s : jsstring) : jsstring :=
  match s with
  | [] => []
  | c :: s' => if N.eqb c comma then [] else c :: before_comma s'
  end.

Fixpoint after_comma (s : jsstring) : option jsstring :=
  match s with
  | [] => None
  | c :: s' => if N.eqb c comma then Some s' else after_comma s'
  end.

(** The text before the first semicolon. *)
Fixpoint before_semicolon (s : jsstring) : jsstring :=
  match s with
  | [] => []
  | c :: s' => if N.eqb c semicolon then [] else c :: before_semicolon s'
  end.

(** Text that can stand between the colon and the semicolon of a
    [:<mime>;] occurrence: no semicolon and no line terminator in it. *)
Definition mime_text (m : jsstring) : Prop :=
  Forall (fun c => dot c = true /\ c <> semicolon) m.

(** [h] has an occurrence [:m;] whose colon comes right after [pre]. *)
Definition occurs_after (pre m h : jsstring) : Prop :=
  mime_text m /\ exists post, h = pre ++ colon :: m ++ semicolon :: post.

(** [h] contains a [:<mime>;] occurrence with a non-empty MIME type. *)
Definition has_mime_pattern (h : jsstring) : Prop :=
  exists pre m, occurs_after pre m h /\ m <> [].

(** [:m;] is the leftmost [:<mime>;] occurrence of [h]. *)
Definition first_occurrence (h m : jsstring) : Prop :=
  exists pre, occurs_after pre m h /\
    forall pre' m', occurs_after pre' m' h -> List.length pre <= List.length pre'.

(** The spec's lifecycle states, read off the component state. *)
Inductive Lifecycle : Type := LNone | LPending | LSuccess | LFailure.

Definition holds (l : Lifecycle) (s : AppState) : Prop :=
  match l with
  | LPending => isLoading s = true
  | LFailure => truthy (error s) = true
  | LSuccess =>
      isLoading s = false /\ truthy (error s) = false
      /\ truthy (generatedImage s) = true
  | LNone =>
      isLoading s = false /\ truthy (error s) = false
      /\ truthy (generatedImage s) = false
  end.

(** ** [handleGenerateClick] at its suspension points

    What is left of the body of [handleGenerateClick] while it waits for the
    first read, for the second read and for the service, and the two ways it
    ends. *)
Definition awaiting_child (childPhoto adultPhoto : File) : Async unit :=
  try_catch_finally
    (childPhotoData <- fileToBase64 childPhoto ;;
     adultPhotoData <- fileToBase64 adultPhoto ;;
     imageUrl <- generateHuggingImage childPhotoData adultPhotoData ;;
     call setGeneratedImage (Some imageUrl))
    (fun e =>
       console_error e ;;
       call setError (Some generation_failed_message))
    (call setIsLoading false).

Definition awaiting_adult (childPhotoData : ImageData) (adultPhoto : File)
  : Async unit :=
  try_catch_finally
    (adultPhotoData <- fileToBase64 adultPhoto ;;
     imageUrl <- generateHuggingImage childPhotoData adultPhotoData ;;
     call setGeneratedImage (Some imageUrl))
    (fun e =>
       console_error e ;;
       call setError (Some generation_failed_message))
    (call setIsLoading false).

Definition awaiting_service (childPhotoData adultPhotoData : ImageData)
  : Async unit :=
  try_catch_finally
    (imageUrl <- generateHuggingImage childPhotoData adultPhotoData ;;
     call setGeneratedImage (Some imageUrl))
    (fun e =>
       console_error e ;;
       call setError (Some generation_failed_message))
    (call setIsLoading false).

Definition attempt_succeeds (imageUrl : jsstring) : Async unit :=
  Update (setGeneratedImage (Some imageUrl))
    (Update (setIsLoading false) (Ret tt)).

Definition attempt_fails (e : Exn) : Async unit :=
  ConsoleError e
    (Update (setError (Some generation_failed_message))
       (Update (setIsLoading false) (Ret tt))).

(** A program that is still to run to the end of an attempt: it awaits, and
    ends in one of the two ways. *)
Inductive attempt_tail : Async unit -> Prop :=
| tail_read file k :
    (forall r, attempt_tail (k r)) -> attempt_tail (AwaitRead file k)
| tail_generate c a k :
    (forall r, attempt_tail (k r)) -> attempt_tail (AwaitGenerate c a k)
| tail_success v : attempt_tail (attempt_succeeds v)
| tail_failure e : attempt_tail (attempt_fails e).

(** ** Reading a run *)

Definition is_selection (e : Event) : bool :=
  match e with
  | InputChange _ _ _ => true
  | _ => false
  end.

Definition is_call (e : Effect) : bool :=
  match e with
  | ReadAsDataURL _ | GenerateHuggingImage _ _ => true
  | _ => false
  end.

(** The calls that left the component, in order. *)
Definition calls (t : list Effect) : list Effect := filter is_call t.

Definition both_selected (s : AppState) : Prop :=
  childPhoto s <> None /\ adultPhoto s <> None.

(** An attempt is suspended as the last of the pending programs of [c], at
    program [p], with the calls [t] made so far. *)
Definition in_flight (earlier : list (Async unit)) (p : Async unit)
  (t : list Effect) (c : Config) : Prop :=
  pending c = earlier ++ [p] /\ calls (trace c) = t
  /\ isLoading (app c) = true /\ error (app c) = None
  /\ generatedImage (app c) = None /\ both_selected (app c).

(** The attempt is over: nothing of it is pending, and the result cells
    hold [image] and [message]. *)
Definition finished (earlier : list (Async unit)) (t : list Effect)
  (image message : option jsstring) (c : Config) : Prop :=
  pending c = earlier /\ calls (trace c) = t
  /\ isLoading (app c) = false /\ error (app c) = message
  /\ generatedImage (app c) = image /\ both_selected (app c).

(** The photo and the preview cell of an uploader. *)
Definition photo_of (slot : Slot) (s : AppState) : option File :=
  match slot with ChildSlot => childPhoto s | AdultSlot => adultPhoto s end.

Definition preview_of (slot : Slot) (s : AppState) : option jsstring :=
  match slot with
  | ChildSlot => childPhotoPreview s
  | AdultSlot => adultPhotoPreview s
  end.

Definition other (slot : Slot) : Slot :=
  match slot with ChildSlot => AdultSlot | AdultSlot => ChildSlot end.

(** ** Invariants of the runs *)

(** Holds after any events: what is pending are attempts, and while the
    loading flag is set there is no error message and both photos are
    selected. *)
Definition invariant (c : Config) : Prop :=
  Forall attempt_tail (pending c)
  /\ (isLoading (app c) = true -> error (app c) = None /\ both_selected (app c)).

(** Holds after events of the page: the loading flag is set exactly while
    one attempt is pending, and of the loading flag, the error message and
    the generated image at most one is set. *)
Definition page_invariant (c : Config) : Prop :=
  Forall attempt_tail (pending c)
  /\ (isLoading (app c) = true ->
      (exists p, pending c = [p]) /\ error (app c) = None
      /\ generatedImage (app c) = None /\ both_selected (app c))
  /\ (isLoading (app c) = false ->
      pending c = [] /\ (error (app c) = None \/ generatedImage (app c) = None)).

(** A [type] attribute that yields a data URL [fileToBase64] accepts: not
    empty, not starting with a semicolon, and free of commas and line
    terminators. *)
Definition well_formed_type (type : jsstring) : Prop :=
  type <> [] /\ hd_error type <> Some semicolon
  /\ Forall (fun c => c <> comma /\ dot c = true) type.

(** ** A concrete scenario

    The scenario of the specification: a ten-byte PNG blob and a ten-byte
    JPEG blob, both selected. *)
Definition sample_child : File :=
  {| file_name := str "child.png"; file_type := str "image/png";
     file_bytes := [x89; x50; x4e; x47; x0d; x0a; x1a; x0a; x00; x00] |}.

Definition sample_adult : File :=
  {| file_name := str "adult.jpg"; file_type := str "image/jpeg";
     file_bytes := [xff; xd8; xff; xe0; x00; x10; x4a; x46; x49; x46] |}.

Definition blob_url (file : File) : jsstring := str "blob:" ++ file_name file.

Definition both_selected_config : Config :=
  run initial_config
    [InputChange ChildSlot (Some [sample_child]) blob_url;
     InputChange AdultSlot (Some [sample_adult]) blob_url].

Definition empty_png : File :=
  {| file_name := str "empty.png"; file_type := str "image/png";
     file_bytes := [] |}.

Definition comma_type_file : File :=
  {| file_name := str "odd"; file_type := str "a:b;x,y";
     file_bytes := [x41; x42; x43] |}.

Definition sample_reference : jsstring := str "data:image/png;base64,AAA=".

(** ** The rest of what [App] and [ImageUploader] render *)

(** The text of the button: [isLoading ? 'Generating...' : 'Create My Image']. *)
Definition button_label (s : AppState) : jsstring :=
  if isLoading s then str "Generating..." else str "Create My Image".

(** What an [ImageUploader] puts in its frame: the [<img>] with [src] and
    [alt] when [previewUrl] is truthy, else the icon with the label and the
    prompt. *)
Inductive UploaderView : Type :=
| PreviewImage (src alt : jsstring)
| UploadPrompt (label : jsstring).

Definition ImageUploader_view (label : jsstring) (previewUrl : option jsstring)
  : UploaderView :=
  match previewUrl with
  | Some (c :: url) => PreviewImage (c :: url) (label ++ str " preview")
  | _ => UploadPrompt label
  end.

(** The [label] props of the two uploaders of [App]. *)
Definition uploader_label (slot : Slot) : jsstring :=
  match slot with
  | ChildSlot => str "Your Photo as a Child"
  | AdultSlot => str "Your Recent Photo"
  end.

Definition uploader (slot : Slot) (s : AppState) : UploaderView :=
  ImageUploader_view (uploader_label slot) (preview_of slot s).

(** ** More ways to read a run *)

(** The object URL minted at a selection is not the empty string. *)
Definition mints_url (e : Event) : bool :=
  match e with
  | InputChange _ (Some (file :: _)) createObjectURL =>
      negb (is_nil (createObjectURL file))
  | _ => true
  end.

Definition is_trigger (e : Event) : bool :=
  match e with
  | ButtonClick | Invoke => true
  | _ => false
  end.

Definition is_selection_or_click (e : Event) : bool :=
  match e with
  | InputChange _ _ _ | ButtonClick => true
  | _ => false
  end.

Definition is_answer (e : Event) : bool :=
  match e with
  | Settle _ _ => true
  | _ => false
  end.

Definition is_selection_or_answer (e : Event) : bool :=
  is_selection e || is_answer e.

Definition is_read (e : Effect) : bool :=
  match e with
  | ReadAsDataURL _ => true
  | _ => false
  end.

Definition is_generate (e : Effect) : bool :=
  match e with
  | GenerateHuggingImage _ _ => true
  | _ => false
  end.

Definition count {A : Type} (f : A -> bool) (l : list A) : nat :=
  List.length (filter f l).

(** The three suspension points of an attempt, with the reads and the
    service calls it has still to make. *)
Inductive attempt_stage : Async unit -> nat -> nat -> Prop :=
| stage_child child adult : attempt_stage (awaiting_child child adult) 1 1
| stage_adult cd adult : attempt_stage (awaiting_adult cd adult) 0 1
| stage_service cd ad : attempt_stage (awaiting_service cd ad) 0 0.

(** The reads and the service calls the pending attempts have still to
    make, together. *)
Inductive budget : list (Async unit) -> nat -> nat -> Prop :=
| budget_nil : budget [] 0 0
| budget_cons p ps r g r' g' :
    attempt_stage p r g -> budget ps r' g' ->
    budget (p :: ps) (r + r') (g + g').

(** After [n] triggers: the reads made and still to make are at most [2 n],
    the service calls made and still to make at most [n]. *)
Definition within_budget (n : nat) (c : Config) : Prop :=
  exists r g,
    budget (pending c) r g
    /\ count is_read (trace c) + r <= 2 * n
    /\ count is_generate (trace c) + g <= n.

(** Two configurations agree on the attempts and their results. *)
Definition same_results (c c' : Config) : Prop :=
  pending c' = pending c /\ calls (trace c') = calls (trace c)
  /\ isLoading (app c') = isLoading (app c)
  /\ error (app c') = error (app c)
  /\ generatedImage (app c') = generatedImage (app c).

(** Two configurations agree on the photos and the previews. *)
Definition same_photos (c c' : Config) : Prop :=
  forall slot,
    photo_of slot (app c') = photo_of slot (app c)
    /\ preview_of slot (app c') = preview_of slot (app c).

(** The two cells of every uploader are absent together, or hold a file
    and a URL that satisfies [Q]. *)
Definition paired_cells (Q : jsstring -> Prop) (s : AppState) : Prop :=
  forall slot,
    (photo_of slot s = None /\ preview_of slot s = None)
    \/ (exists file url,
          photo_of slot s = Some file /\ preview_of slot s = Some url /\ Q url).

(** * Properties *)

(** ** Splitting and matching *)

Lemma split_segments (s : jsstring) :
  split s = before_comma s
            :: match after_comma s with Some r => split r | None => [] end.
Proof.
  induction s as [|c s IH]; simpl; [reflexivity|].
  destruct (N.eqb c comma); [reflexivity|].
  rewrite IH. reflexivity.
Qed.

Lemma split_header (s : jsstring) :
  nth_error (split s) 0 = Some (before_comma s).
Proof. rewrite split_segments. reflexivity. Qed.

Lemma split_data (s : jsstring) :
  nth_error (split s) 1 = option_map before_comma (after_comma s).
Proof.
  rewrite split_segments. simpl.
  destruct (after_comma s) as [r|]; [|reflexivity].
  rewrite split_segments. reflexivity.
Qed.

Lemma before_comma_app (header rest : jsstring) :
  ~ In comma header -> before_comma (header ++ comma :: rest) = header.
Proof.
  induction header as [|c h IH]; simpl; intros Hnot.
  - reflexivity.
  - destruct (N.eqb_spec c comma) as [->|_]; [tauto|].
    rewrite IH; tauto.
Qed.

Lemma after_comma_app (header rest : jsstring) :
  ~ In comma header -> after_comma (header ++ comma :: rest) = Some rest.
Proof.
  induction header as [|c h IH]; simpl; intros Hnot.
  - reflexivity.
  - destruct (N.eqb_spec c comma) as [->|_]; [tauto|].
    apply IH; tauto.
Qed.

Lemma before_comma_id (s : jsstring) : ~ In comma s -> before_comma s = s.
Proof.
  induction s as [|c s IH]; simpl; intros Hnot; [reflexivity|].
  destruct (N.eqb_spec c comma) as [->|_]; [tauto|].
  rewrite IH; tauto.
Qed.

Lemma before_comma_no_comma (s : jsstring) : ~ In comma (before_comma s).
Proof.
  induction s as [|c s IH]; simpl; [tauto|].
  destruct (N.eqb_spec c comma) as [->|Hc]; simpl; [tauto|].
  intros [E|H]; [congruence | tauto].
Qed.

(** [fileToBase64_onload] in terms of the two segments. *)
Lemma onload_by_segments (result : jsstring) :
  fileToBase64_onload result =
  match before_comma result, option_map before_comma (after_comma result) with
  | (_ :: _) as header, Some ((_ :: _) as payload) =>
      match regexp_match header with
      | Some ((_ :: _) as mime) => Resolve {| mimeType := mime; data := payload |}
      | _ => Reject no_mime_type
      end
  | _, _ => Reject invalid_file_format
  end.
Proof.
  unfold fileToBase64_onload.
  rewrite split_header, split_data.
  destruct (before_comma result) as [|h0 h]; [reflexivity|].
  destruct (option_map before_comma (after_comma result)) as [[|d0 d]|];
    try reflexivity.
  cbn [truthy negb orb].
  destruct (regexp_match (h0 :: h)) as [[|m0 m]|]; reflexivity.
Qed.

Lemma lazy_until_semicolon_spec (s m : jsstring) :
  lazy_until_semicolon s = Some m <->
  mime_text m /\ exists post, s = m ++ semicolon :: post.
Proof.
  split.
  - revert m. induction s as [|c s IH]; simpl; intros m H; [discriminate|].
    destruct (N.eqb_spec c semicolon) as [->|Hc].
    + injection H as <-. split; [constructor | exists s; reflexivity].
    + destruct (dot c) eqn:Hdot; [|discriminate].
      destruct (lazy_until_semicolon s) as [m'|]; [|discriminate].
      injection H as <-.
      destruct (IH m' eq_refl) as [Hm [post ->]].
      split; [constructor; auto | exists post; reflexivity].
  - intros [Hm [post ->]]. induction Hm as [|c m [Hdot Hc] _ IH]; simpl.
    + reflexivity.
    + destruct (N.eqb_spec c semicolon) as [E|_]; [contradiction|].
      rewrite Hdot, IH. reflexivity.
Qed.

Lemma occurs_after_nil (m h : jsstring) :
  occurs_after [] m h <->
  exists rest, h = colon :: rest /\ lazy_until_semicolon rest = Some m.
Proof.
  unfold occurs_after. split.
  - intros [Hm [post ->]]. exists (m ++ semicolon :: post). split; [reflexivity|].
    apply lazy_until_semicolon_spec. split; [exact Hm | exists post; reflexivity].
  - intros [rest [-> H]]. apply lazy_until_semicolon_spec in H as [Hm [post ->]].
    split; [exact Hm | exists post; reflexivity].
Qed.

Lemma occurs_after_cons (x : code_unit) (pre m : jsstring) (c : code_unit)
  (rest : jsstring) :
  occurs_after (x :: pre) m (c :: rest) <-> x = c /\ occurs_after pre m rest.
Proof.
  unfold occurs_after. split.
  - intros [Hm [post E]]. simpl in E. injection E as -> ->.
    split; [reflexivity | split; [exact Hm | exists post; reflexivity]].
  - intros [-> [Hm [post ->]]]. split; [exact Hm | exists post; reflexivity].
Qed.

Lemma occurs_after_empty (pre m : jsstring) : ~ occurs_after pre m [].
Proof. intros [_ [post E]]. destruct pre; discriminate. Qed.

(** The model of [header.match(/:(.*?);/)] finds exactly the leftmost
    [:<mime>;] occurrence. *)
Lemma regexp_match_spec (h m : jsstring) :
  regexp_match h = Some m <-> first_occurrence h m.
Proof.
  revert m. induction h as [|c rest IH]; intros m.
  - simpl. split; [discriminate|].
    intros [pre [H _]]. elim (occurs_after_empty _ _ H).
  - assert (Hskip : (forall g, ~ occurs_after [] g (c :: rest)) ->
                    (regexp_match rest = Some m <-> first_occurrence (c :: rest) m)).
    { intros Hno. rewrite IH. split.
      - intros [pre [Hocc Hmin]]. exists (c :: pre). split.
        + apply occurs_after_cons. auto.
        + intros [|x pre'] m' H'; [elim (Hno _ H')|].
          apply occurs_after_cons in H' as [_ H']. simpl.
          apply le_n_S. eapply Hmin; eauto.
      - intros [[|x pre] [Hocc Hmin]]; [elim (Hno _ Hocc)|].
        apply occurs_after_cons in Hocc as [-> Hocc]. exists pre. split; [auto|].
        intros pre' m' H'. apply le_S_n.
        apply (Hmin (c :: pre') m'). apply occurs_after_cons. auto. }
    simpl. destruct (N.eqb_spec c colon) as [->|Hc].
    + destruct (lazy_until_semicolon rest) as [g|] eqn:Hlazy.
      * assert (Hg : occurs_after [] g (colon :: rest))
          by (apply occurs_after_nil; eauto).
        split.
        -- intros E. injection E as <-. exists []. split; [auto|].
           intros; simpl; apply Nat.le_0_l.
        -- intros [pre [Hocc Hmin]]. specialize (Hmin _ _ Hg).
           destruct pre; [|simpl in Hmin; lia].
           apply occurs_after_nil in Hocc as [rest' [E H]].
           injection E as <-. congruence.
      * apply Hskip. intros g H. apply occurs_after_nil in H as [rest' [E H]].
        injection E as <-. congruence.
    + apply Hskip. intros g H. apply occurs_after_nil in H as [rest' [E H]].
      congruence.
Qed.

Lemma no_mime_iff (h : jsstring) :
  (~ exists m, first_occurrence h m /\ m <> []) <->
  (regexp_match h = None \/ regexp_match h = Some []).
Proof.
  split.
  - intros Hno. destruct (regexp_match h) as [[|c m]|] eqn:E; auto.
    elim Hno. exists (c :: m). split; [apply regexp_match_spec; auto | discriminate].
  - intros Hm [m [Hfirst Hne]]. apply regexp_match_spec in Hfirst.
    destruct Hm as [E|E]; rewrite E in Hfirst; [discriminate|].
    injection Hfirst as <-. auto.
Qed.

(** ** The encoder: [fileToBase64] *)

Example onload_png :
  fileToBase64_onload (str "data:image/png;base64,iVBORw0KGgo=")
  = Resolve {| mimeType := str "image/png"; data := str "iVBORw0KGgo=" |}.
Proof. reflexivity. Qed.

Example onload_no_comma :
  fileToBase64_onload (str "data:image/png;base64") = Reject invalid_file_format.
Proof. reflexivity. Qed.

Example onload_empty_result :
  fileToBase64_onload [] = Reject invalid_file_format.
Proof. reflexivity. Qed.

Example onload_empty_mime :
  fileToBase64_onload (str "data:;base64,AAAA") = Reject no_mime_type.
Proof. reflexivity. Qed.

Example onload_mime_with_parameter :
  fileToBase64_onload (str "data:text/plain;charset=utf-8;base64,QQ==")
  = Resolve {| mimeType := str "text/plain"; data := str "QQ==" |}.
Proof. reflexivity. Qed.

(** C4, as stated, fails: the header [x:;y:image/png;] is not empty, the data
    segment [AAAA] is not empty, and the header contains the occurrence
    [:image/png;] with a non-empty MIME type, yet the promise is rejected:
    the regular expression stops at the leftmost occurrence, [:;], whose
    MIME type is empty. *)
Lemma fileToBase64_rejects_despite_mime_pattern :
  let result := str "x:;y:image/png;,AAAA" in
  before_comma result = str "x:;y:image/png;"
  /\ option_map before_comma (after_comma result) = Some (str "AAAA")
  /\ has_mime_pattern (before_comma result)
  /\ fileToBase64_onload result = Reject no_mime_type.
Proof.
  cbv zeta. repeat split; try reflexivity.
  exists (str "x:;y"), (str "image/png"). split; [split|discriminate].
  - unfold mime_text. repeat constructor; discriminate.
  - exists []. reflexivity.
Qed.

(** C4, amended: [fileToBase64_onload] rejects exactly when the header (the
    text before the first comma) is empty, or the data segment (the text
    between the first comma and the next) is missing or empty, or the
    leftmost [:<mime>;] occurrence of the header is missing or has an empty
    MIME type; the error is then one of the two [Error]s of the source, and
    an image it resolves with has a non-empty [mimeType] and a non-empty
    [data]. *)
Theorem fileToBase64_rejects_iff (result : jsstring) :
  let header := before_comma result in
  let payload := option_map before_comma (after_comma result) in
  ((exists e, fileToBase64_onload result = Reject e) <->
   (header = [] \/ truthy payload = false
    \/ ~ exists m, first_occurrence header m /\ m <> []))
  /\ (forall e, fileToBase64_onload result = Reject e ->
        e = invalid_file_format \/ e = no_mime_type)
  /\ (forall img, fileToBase64_onload result = Resolve img ->
        mimeType img <> [] /\ data img <> []).
Proof.
  cbv zeta. rewrite onload_by_segments.
  assert (Hinvalid :
    forall A B : Prop, A \/ B ->
    ((exists e, @Reject ImageData invalid_file_format = Reject e) <-> A \/ B)
    /\ (forall e, @Reject ImageData invalid_file_format = Reject e ->
          e = invalid_file_format \/ e = no_mime_type)
    /\ (forall img, Reject invalid_file_format = Resolve img ->
          mimeType img <> [] /\ data img <> [])).
  { intros A B HAB. split; [split; [auto | eauto]|].
    split; [|discriminate]. intros e E. injection E as <-. auto. }
  destruct (before_comma result) as [|h0 h] eqn:Hh.
  { apply Hinvalid. left. reflexivity. }
  destruct (option_map before_comma (after_comma result)) as [[|d0 d]|] eqn:Hd.
  1, 3: (apply Hinvalid; right; left; reflexivity).
  pose proof (no_mime_iff (h0 :: h)) as Hno.
  assert (Hnomime :
    (~ exists m, first_occurrence (h0 :: h) m /\ m <> []) ->
    ((exists e, @Reject ImageData no_mime_type = Reject e) <->
     (h0 :: h = [] \/ truthy (Some (d0 :: d)) = false
      \/ ~ exists m, first_occurrence (h0 :: h) m /\ m <> []))
    /\ (forall e, @Reject ImageData no_mime_type = Reject e ->
          e = invalid_file_format \/ e = no_mime_type)
    /\ (forall img, Reject no_mime_type = Resolve img ->
          mimeType img <> [] /\ data img <> [])).
  { intros H. split; [split; [auto | eauto]|].
    split; [|discriminate]. intros e E. injection E as <-. auto. }
  destruct (regexp_match (h0 :: h)) as [[|m0 m]|] eqn:Hm.
  - apply Hnomime, Hno. auto.
  - split; [split|split].
    + intros [e E]. discriminate.
    + intros [E|[E|E]]; try discriminate.
      apply Hno in E as [E|E]; discriminate.
    + discriminate.
    + intros img E. injection E as <-. split; discriminate.
  - apply Hnomime, Hno. auto.
Qed.

(** C5, as stated, fails: for [data:image/png;base64,AAA,BBB] the remainder
    after the first comma is [AAA,BBB], and the payload is [AAA]. *)
Lemma fileToBase64_payload_stops_at_second_comma :
  let result := str "data:image/png;base64,AAA,BBB" in
  after_comma result = Some (str "AAA,BBB")
  /\ fileToBase64_onload result
     = Resolve {| mimeType := str "image/png"; data := str "AAA" |}
  /\ str "AAA" <> str "AAA,BBB".
Proof. cbv zeta. repeat split; try reflexivity. discriminate. Qed.

(** C5, amended: for a string [header,rest] whose [header] has no comma, an
    image [fileToBase64_onload] resolves with has for [mimeType] the MIME
    type of the leftmost [:<mime>;] occurrence of [header], and for [data]
    the text of [rest] up to its first comma, which is all of [rest] when
    [rest] has no comma; and it does resolve, with that image, when [header]
    and that text are non-empty and the MIME type is non-empty. *)
Theorem fileToBase64_splits_at_commas (header rest : jsstring) :
  ~ In comma header ->
  (forall img, fileToBase64_onload (header ++ comma :: rest) = Resolve img ->
     first_occurrence header (mimeType img)
     /\ data img = before_comma rest
     /\ (~ In comma rest -> data img = rest))
  /\ (forall m, header <> [] -> before_comma rest <> [] ->
        first_occurrence header m -> m <> [] ->
        fileToBase64_onload (header ++ comma :: rest)
        = Resolve {| mimeType := m; data := before_comma rest |}).
Proof.
  intros Hnot. rewrite onload_by_segments.
  rewrite before_comma_app, after_comma_app by assumption. simpl option_map.
  split.
  - intros img. destruct header as [|h0 h]; [discriminate|].
    destruct (before_comma rest) as [|d0 d] eqn:Hd; [discriminate|].
    destruct (regexp_match (h0 :: h)) as [[|m0 m]|] eqn:Hm; try discriminate.
    intros E. injection E as <-. simpl.
    split; [apply regexp_match_spec; assumption|].
    split; [reflexivity|].
    intros Hrest. rewrite <- Hd. apply before_comma_id. assumption.
  - intros m Hh Hd Hfirst Hne. apply regexp_match_spec in Hfirst.
    destruct header as [|h0 h]; [congruence|].
    destruct (before_comma rest) as [|d0 d]; [congruence|].
    rewrite Hfirst. destruct m; [congruence | reflexivity].
Qed.

Lemma fileToBase64_splits_at_commas_witness :
  ~ In comma (str "data:image/png;base64")
  /\ fileToBase64_onload (str "data:image/png;base64" ++ comma :: str "AAA,BBB")
     = Resolve {| mimeType := str "image/png"; data := before_comma (str "AAA,BBB") |}.
Proof.
  assert (Hnot : ~ In comma (str "data:image/png;base64")).
  { vm_compute. intuition discriminate. }
  split; [exact Hnot|].
  apply (proj2 (fileToBase64_splits_at_commas _ (str "AAA,BBB") Hnot)).
  - discriminate.
  - discriminate.
  - apply regexp_match_spec. reflexivity.
  - discriminate.
Defined.

(** ** Runs of the component *)

Lemma run_cons (c : Config) (e : Event) (es : list Event) :
  run c (e :: es) = run (step c e) es.
Proof. reflexivity. Qed.

Lemma run_app (c : Config) (es es' : list Event) :
  run c (es ++ es') = run (run c es) es'.
Proof. apply fold_left_app. Qed.

Lemma nth_error_last {A : Type} (l : list A) (x : A) :
  nth_error (l ++ [x]) (List.length l) = Some x.
Proof. induction l; simpl; auto. Qed.

Lemma replace_nth_last {A : Type} (l : list A) (x : A) (y : option A) :
  replace_nth (List.length l) (l ++ [x]) y
  = l ++ match y with Some z => [z] | None => [] end.
Proof.
  induction l as [|a l IH]; simpl.
  - destruct y; reflexivity.
  - rewrite IH. reflexivity.
Qed.

Lemma calls_app (t t' : list Effect) : calls (t ++ t') = calls t ++ calls t'.
Proof. apply filter_app. Qed.

Lemma handleGenerateClick_both (child adult : File) :
  handleGenerateClick (Some child) (Some adult)
  = Update (setIsLoading true)
      (Update (setError None)
         (Update (setGeneratedImage None) (awaiting_child child adult))).
Proof. reflexivity. Qed.

Lemma handleGenerateClick_missing (child adult : option File) :
  child = None \/ adult = None ->
  handleGenerateClick child adult
  = Update (setError (Some missing_photos_message)) (Ret tt).
Proof. intros [-> | ->]; [reflexivity | destruct child; reflexivity]. Qed.

Lemma resume_awaiting_child (child adult : File) (o : ReadOutcome) :
  resume (awaiting_child child adult) (FileRead o)
  = Some match fileToBase64_settled o with
         | Resolve childPhotoData => awaiting_adult childPhotoData adult
         | Reject e => attempt_fails e
         end.
Proof. simpl. destruct (fileToBase64_settled o); reflexivity. Qed.

Lemma resume_awaiting_adult (childPhotoData : ImageData) (adult : File)
  (o : ReadOutcome) :
  resume (awaiting_adult childPhotoData adult) (FileRead o)
  = Some match fileToBase64_settled o with
         | Resolve adultPhotoData => awaiting_service childPhotoData adultPhotoData
         | Reject e => attempt_fails e
         end.
Proof. simpl. destruct (fileToBase64_settled o); reflexivity. Qed.

Lemma resume_awaiting_service (childPhotoData adultPhotoData : ImageData)
  (o : Settled jsstring) :
  resume (awaiting_service childPhotoData adultPhotoData) (ServiceAnswer o)
  = Some match o with
         | Resolve imageUrl => attempt_succeeds imageUrl
         | Reject e => attempt_fails e
         end.
Proof. simpl. destruct o; reflexivity. Qed.

Lemma step_invoke_both (c : Config) (child adult : File) :
  childPhoto (app c) = Some child -> adultPhoto (app c) = Some adult ->
  step c Invoke =
  let s1 := setIsLoading true (app c) in
  let s2 := setError None s1 in
  let s3 := setGeneratedImage None s2 in
  {| app := s3;
     pending := pending c ++ [awaiting_child child adult];
     trace := trace c ++ [Wrote s1; Wrote s2; Wrote s3; ReadAsDataURL child] |}.
Proof.
  intros Hc Ha. unfold step, start_generate. rewrite Hc, Ha. reflexivity.
Qed.

Lemma step_invoke_missing (c : Config) :
  childPhoto (app c) = None \/ adultPhoto (app c) = None ->
  step c Invoke =
  let s' := setError (Some missing_photos_message) (app c) in
  {| app := s'; pending := pending c; trace := trace c ++ [Wrote s'] |}.
Proof.
  intros H. unfold step, start_generate.
  rewrite (handleGenerateClick_missing _ _ H). simpl.
  rewrite app_nil_r. reflexivity.
Qed.

Lemma step_click_enabled (c : Config) :
  button_disabled (app c) = false -> step c ButtonClick = step c Invoke.
Proof. intros H. simpl. rewrite H. reflexivity. Qed.

Lemma step_settle (c : Config) (i : nat) (p k : Async unit) (r : Response) :
  nth_error (pending c) i = Some p -> resume p r = Some k ->
  step c (Settle i r) =
  let '(s', effects, rest) := run_sync k (app c) in
  {| app := s';
     pending := replace_nth i (pending c) rest;
     trace := trace c ++ effects |}.
Proof. intros Hp Hk. simpl. rewrite Hp, Hk. reflexivity. Qed.

(** A file selection writes the photo and the preview of its slot and
    nothing else. *)
Lemma step_selection (c : Config) (slot : Slot) (files : option (list File))
  (mk : File -> jsstring) :
  let c' := step c (InputChange slot files mk) in
  pending c' = pending c /\ trace c' = trace c
  /\ isLoading (app c') = isLoading (app c)
  /\ error (app c') = error (app c)
  /\ generatedImage (app c') = generatedImage (app c)
  /\ (childPhoto (app c) <> None -> childPhoto (app c') <> None)
  /\ (adultPhoto (app c) <> None -> adultPhoto (app c') <> None).
Proof.
  destruct files as [[|f fs]|]; destruct slot; simpl;
    repeat split; auto; discriminate.
Qed.

Lemma in_flight_selections (earlier : list (Async unit)) (p : Async unit)
  (t : list Effect) (es : list Event) :
  forallb is_selection es = true ->
  forall c, in_flight earlier p t c -> in_flight earlier p t (run c es).
Proof.
  induction es as [|e es IH]; intros Hes c Hc; [exact Hc|].
  simpl in Hes. apply andb_prop in Hes as [He Hes].
  rewrite run_cons. apply IH; [exact Hes|].
  destruct e as [slot files mk| | |]; try discriminate.
  destruct (step_selection c slot files mk) as (E1 & E2 & E3 & E4 & E5 & E6 & E7).
  destruct Hc as (H1 & H2 & H3 & H4 & H5 & H6 & H7).
  unfold in_flight, both_selected.
  rewrite E1, E2, E3, E4, E5. auto 10.
Qed.

Lemma finished_selections (earlier : list (Async unit)) (t : list Effect)
  (image message : option jsstring) (es : list Event) :
  forallb is_selection es = true ->
  forall c, finished earlier t image message c ->
            finished earlier t image message (run c es).
Proof.
  induction es as [|e es IH]; intros Hes c Hc; [exact Hc|].
  simpl in Hes. apply andb_prop in Hes as [He Hes].
  rewrite run_cons. apply IH; [exact Hes|].
  destruct e as [slot files mk| | |]; try discriminate.
  destruct (step_selection c slot files mk) as (E1 & E2 & E3 & E4 & E5 & E6 & E7).
  destruct Hc as (H1 & H2 & H3 & H4 & H5 & H6 & H7).
  unfold finished, both_selected.
  rewrite E1, E2, E3, E4, E5. auto 10.
Qed.

Lemma in_flight_invoke (c : Config) (child adult : File) :
  childPhoto (app c) = Some child -> adultPhoto (app c) = Some adult ->
  in_flight (pending c) (awaiting_child child adult)
    (calls (trace c) ++ [ReadAsDataURL child]) (step c Invoke).
Proof.
  intros Hc Ha. rewrite (step_invoke_both c child adult Hc Ha).
  unfold in_flight, both_selected. cbn -[calls].
  rewrite calls_app, Hc, Ha. repeat split; auto; discriminate.
Qed.

(** An answer that takes the attempt to its next suspension. *)
Lemma in_flight_settle_await (earlier : list (Async unit)) (p k : Async unit)
  (t : list Effect) (c : Config) (r : Response) (call_made : Effect) :
  in_flight earlier p t c ->
  resume p r = Some k ->
  (forall s, run_sync k s = (s, [call_made], Some k)) ->
  in_flight earlier k (t ++ calls [call_made])
    (step c (Settle (List.length earlier) r)).
Proof.
  intros (H1 & H2 & H3 & H4 & H5 & H6) Hk Hrun.
  rewrite (step_settle c (List.length earlier) p k r);
    [| rewrite H1; apply nth_error_last | exact Hk].
  rewrite Hrun. unfold in_flight. cbn -[calls].
  rewrite H1, replace_nth_last, calls_app, H2. auto 10.
Qed.

(** The answer that ends the attempt with an image. *)
Lemma in_flight_settle_success (earlier : list (Async unit)) (p : Async unit)
  (t : list Effect) (c : Config) (r : Response) (v : jsstring) :
  in_flight earlier p t c ->
  resume p r = Some (attempt_succeeds v) ->
  finished earlier t (Some v) None (step c (Settle (List.length earlier) r)).
Proof.
  intros (H1 & H2 & H3 & H4 & H5 & H6) Hk.
  rewrite (step_settle c (List.length earlier) p (attempt_succeeds v) r);
    [| rewrite H1; apply nth_error_last | exact Hk].
  unfold finished. cbn -[calls].
  rewrite H1, replace_nth_last, calls_app, H2, app_nil_r. cbn.
  rewrite app_nil_r. auto 10.
Qed.

(** An answer that ends the attempt in the [catch] block. *)
Lemma in_flight_settle_failure (earlier : list (Async unit)) (p : Async unit)
  (t : list Effect) (c : Config) (r : Response) (e : Exn) :
  in_flight earlier p t c ->
  resume p r = Some (attempt_fails e) ->
  finished earlier t None (Some generation_failed_message)
    (step c (Settle (List.length earlier) r)).
Proof.
  intros (H1 & H2 & H3 & H4 & H5 & H6) Hk.
  rewrite (step_settle c (List.length earlier) p (attempt_fails e) r);
    [| rewrite H1; apply nth_error_last | exact Hk].
  unfold finished. cbn -[calls].
  rewrite H1, replace_nth_last, calls_app, H2, app_nil_r. cbn.
  rewrite app_nil_r. auto 10.
Qed.

Lemma run_sync_awaiting_child (child adult : File) (s : AppState) :
  run_sync (awaiting_child child adult) s
  = (s, [ReadAsDataURL child], Some (awaiting_child child adult)).
Proof. reflexivity. Qed.

Lemma run_sync_awaiting_adult (cd : ImageData) (adult : File) (s : AppState) :
  run_sync (awaiting_adult cd adult) s
  = (s, [ReadAsDataURL adult], Some (awaiting_adult cd adult)).
Proof. reflexivity. Qed.

Lemma run_sync_awaiting_service (cd ad : ImageData) (s : AppState) :
  run_sync (awaiting_service cd ad) s
  = (s, [GenerateHuggingImage cd ad], Some (awaiting_service cd ad)).
Proof. reflexivity. Qed.

(** The attempt up to the call of the service, file selections in between
    allowed. *)
Lemma in_flight_until_service (c : Config) (child adult : File)
  (r1 r2 : ReadOutcome) (cd ad : ImageData) (es0 es1 es2 : list Event) :
  childPhoto (app c) = Some child -> adultPhoto (app c) = Some adult ->
  fileToBase64_settled r1 = Resolve cd ->
  fileToBase64_settled r2 = Resolve ad ->
  forallb is_selection es0 = true -> forallb is_selection es1 = true ->
  forallb is_selection es2 = true ->
  let i := List.length (pending c) in
  in_flight (pending c) (awaiting_service cd ad)
    (calls (trace c)
     ++ [ReadAsDataURL child; ReadAsDataURL adult; GenerateHuggingImage cd ad])
    (run c (Invoke :: es0 ++ Settle i (FileRead r1) :: es1
            ++ Settle i (FileRead r2) :: es2)).
Proof.
  intros Hc Ha H1 H2 E0 E1 E2 i.
  rewrite run_cons, run_app, run_cons, run_app, run_cons.
  apply in_flight_selections; [exact E2|].
  replace (calls (trace c)
           ++ [ReadAsDataURL child; ReadAsDataURL adult; GenerateHuggingImage cd ad])
    with (((calls (trace c) ++ [ReadAsDataURL child])
           ++ calls [ReadAsDataURL adult]) ++ calls [GenerateHuggingImage cd ad])
    by (rewrite <- !app_assoc; reflexivity).
  eapply in_flight_settle_await;
    [ | rewrite resume_awaiting_adult, H2; reflexivity
      | apply run_sync_awaiting_service ].
  apply in_flight_selections; [exact E1|].
  eapply in_flight_settle_await;
    [ | rewrite resume_awaiting_child, H1; reflexivity
      | apply run_sync_awaiting_adult ].
  apply in_flight_selections; [exact E0|].
  apply in_flight_invoke; assumption.
Qed.

Lemma render_image (s : AppState) (v : jsstring) :
  isLoading s = false -> error s = None -> generatedImage s = Some v ->
  v <> [] -> render_result s = [GeneratedImagePanel v].
Proof.
  intros Hl He Hg Hv. unfold render_result. rewrite Hl, He, Hg.
  destruct v; [contradiction | reflexivity].
Qed.

Lemma render_error (s : AppState) (m : jsstring) :
  isLoading s = false -> error s = Some m -> m <> [] ->
  render_result s = [ErrorText m].
Proof.
  intros Hl He Hm. unfold render_result. rewrite Hl, He.
  destruct m; [contradiction|]. simpl.
  destruct (generatedImage s) as [[|]|]; reflexivity.
Qed.

(** ** The orchestrator: [handleGenerateClick] *)

(** C1: when [handleGenerateClick] runs with the child photo or the adult
    photo missing, it makes one setter call, [setError] with the validation
    message, and ends: no file is read, the service is not called, nothing
    is left pending, the loading flag is not written, and the message is
    what the result panel shows for the error. *)
Theorem generate_without_both_photos (c : Config) :
  childPhoto (app c) = None \/ adultPhoto (app c) = None ->
  let s' := setError (Some missing_photos_message) (app c) in
  step c Invoke
  = {| app := s'; pending := pending c; trace := trace c ++ [Wrote s'] |}
  /\ calls (trace (step c Invoke)) = calls (trace c)
  /\ isLoading s' = isLoading (app c)
  /\ error s' = Some missing_photos_message
  /\ In (ErrorText missing_photos_message) (render_result s').
Proof.
  intros H s'.
  assert (E : step c Invoke
              = {| app := s'; pending := pending c; trace := trace c ++ [Wrote s'] |})
    by (apply step_invoke_missing; exact H).
  split; [exact E|]. rewrite E. cbn -[calls missing_photos_message].
  split; [rewrite calls_app; simpl; apply app_nil_r|].
  split; [reflexivity|]. split; [reflexivity|].
  unfold render_result. apply in_or_app. right. apply in_or_app. left.
  simpl. left. reflexivity.
Qed.

Lemma generate_without_both_photos_witness :
  (childPhoto (app initial_config) = None \/ adultPhoto (app initial_config) = None)
  /\ error (app (step initial_config Invoke)) = Some missing_photos_message
  /\ calls (trace (step initial_config Invoke)) = [].
Proof.
  assert (H : childPhoto (app initial_config) = None
              \/ adultPhoto (app initial_config) = None) by (left; reflexivity).
  split; [exact H|].
  destruct (generate_without_both_photos initial_config H) as (E & Hc & _ & He & _).
  split; [rewrite E; exact He | exact Hc].
Defined.

(** The button itself is disabled while a photo is missing: a click does
    not reach [handleGenerateClick]. *)
Lemma click_without_both_photos (c : Config) :
  childPhoto (app c) = None \/ adultPhoto (app c) = None ->
  step c ButtonClick = c.
Proof.
  intros H. simpl. unfold button_disabled.
  destruct H as [-> | ->]; [|destruct (childPhoto (app c))]; reflexivity.
Qed.

(** C2: when [handleGenerateClick] runs with both photos selected, both
    reads load strings that [fileToBase64] accepts and the service resolves
    with [v], the attempt ends with the loading flag cleared, no error and
    [generatedImage] equal to [v], which is the image the result panel
    shows; the user may select files at any point in between. *)
Theorem generate_success (c : Config) (child adult : File)
  (r1 r2 : ReadOutcome) (cd ad : ImageData) (v : jsstring)
  (es0 es1 es2 es3 : list Event) :
  childPhoto (app c) = Some child -> adultPhoto (app c) = Some adult ->
  fileToBase64_settled r1 = Resolve cd ->
  fileToBase64_settled r2 = Resolve ad ->
  forallb is_selection (es0 ++ es1 ++ es2 ++ es3) = true ->
  let i := List.length (pending c) in
  let c' := run c (Invoke :: es0 ++ Settle i (FileRead r1) :: es1
                   ++ Settle i (FileRead r2) :: es2
                   ++ Settle i (ServiceAnswer (Resolve v)) :: es3) in
  isLoading (app c') = false
  /\ error (app c') = None
  /\ generatedImage (app c') = Some v
  /\ pending c' = pending c
  /\ calls (trace c')
     = calls (trace c)
       ++ [ReadAsDataURL child; ReadAsDataURL adult; GenerateHuggingImage cd ad]
  /\ (v <> [] -> render_result (app c') = [GeneratedImagePanel v]).
Proof.
  intros Hc Ha H1 H2 Hes i c'.
  rewrite !forallb_app in Hes.
  apply andb_prop in Hes as [E0 Hes]. apply andb_prop in Hes as [E1 Hes].
  apply andb_prop in Hes as [E2 E3].
  pose proof (in_flight_until_service c child adult r1 r2 cd ad es0 es1 es2
                Hc Ha H1 H2 E0 E1 E2) as Hfly.
  assert (Hfin : finished (pending c)
                   (calls (trace c)
                    ++ [ReadAsDataURL child; ReadAsDataURL adult;
                        GenerateHuggingImage cd ad]) (Some v) None c').
  { unfold c'.
    replace (Invoke :: es0 ++ Settle i (FileRead r1) :: es1
             ++ Settle i (FileRead r2) :: es2
             ++ Settle i (ServiceAnswer (Resolve v)) :: es3)
      with ((Invoke :: es0 ++ Settle i (FileRead r1) :: es1
             ++ Settle i (FileRead r2) :: es2)
            ++ Settle i (ServiceAnswer (Resolve v)) :: es3)
      by (simpl; rewrite <- !app_assoc; simpl; rewrite <- !app_assoc; reflexivity).
    rewrite run_app, run_cons.
    apply finished_selections; [exact E3|].
    eapply in_flight_settle_success; [exact Hfly|].
    apply resume_awaiting_service. }
  destruct Hfin as (F1 & F2 & F3 & F4 & F5 & F6).
  repeat (split; [assumption|]).
  apply render_image; assumption.
Qed.

Lemma generate_success_witness :
  let c' := run both_selected_config
              [Invoke;
               Settle 0 (FileRead (Loaded (data_url sample_child)));
               Settle 0 (FileRead (Loaded (data_url sample_adult)));
               Settle 0 (ServiceAnswer (Resolve sample_reference))] in
  fileToBase64_settled (Loaded (data_url sample_child))
  = Resolve {| mimeType := str "image/png"; data := str "iVBORw0KGgoAAA==" |}
  /\ isLoading (app c') = false
  /\ error (app c') = None
  /\ generatedImage (app c') = Some sample_reference
  /\ render_result (app c') = [GeneratedImagePanel sample_reference].
Proof.
  pose proof (generate_success both_selected_config sample_child sample_adult
                (Loaded (data_url sample_child)) (Loaded (data_url sample_adult))
                {| mimeType := str "image/png"; data := str "iVBORw0KGgoAAA==" |}
                {| mimeType := str "image/jpeg"; data := str "/9j/4AAQSkZJRg==" |}
                sample_reference [] [] [] []
                eq_refl eq_refl eq_refl eq_refl eq_refl) as H.
  cbv zeta in H. destruct H as (H1 & H2 & H3 & _ & _ & H6).
  cbv zeta. split; [reflexivity|].
  split; [exact H1|]. split; [exact H2|]. split; [exact H3|].
  apply H6. discriminate.
Defined.

(** C3: when [handleGenerateClick] runs with both photos selected and the
    service rejects, the attempt ends with the failure message, which is not
    empty, in [error], with [generatedImage] absent and the loading flag
    cleared; the result panel shows the message, the button is enabled, and
    a click starts a new attempt. *)
Theorem generate_client_rejects (c : Config) (child adult : File)
  (r1 r2 : ReadOutcome) (cd ad : ImageData) (e : Exn)
  (es0 es1 es2 es3 : list Event) :
  childPhoto (app c) = Some child -> adultPhoto (app c) = Some adult ->
  fileToBase64_settled r1 = Resolve cd ->
  fileToBase64_settled r2 = Resolve ad ->
  forallb is_selection (es0 ++ es1 ++ es2 ++ es3) = true ->
  let i := List.length (pending c) in
  let c' := run c (Invoke :: es0 ++ Settle i (FileRead r1) :: es1
                   ++ Settle i (FileRead r2) :: es2
                   ++ Settle i (ServiceAnswer (Reject e)) :: es3) in
  isLoading (app c') = false
  /\ error (app c') = Some generation_failed_message
  /\ generation_failed_message <> []
  /\ generatedImage (app c') = None
  /\ pending c' = pending c
  /\ render_result (app c') = [ErrorText generation_failed_message]
  /\ button_disabled (app c') = false
  /\ exists child' adult',
       in_flight (pending c') (awaiting_child child' adult')
         (calls (trace c') ++ [ReadAsDataURL child']) (step c' ButtonClick).
Proof.
  intros Hc Ha H1 H2 Hes i c'.
  rewrite !forallb_app in Hes.
  apply andb_prop in Hes as [E0 Hes]. apply andb_prop in Hes as [E1 Hes].
  apply andb_prop in Hes as [E2 E3].
  pose proof (in_flight_until_service c child adult r1 r2 cd ad es0 es1 es2
                Hc Ha H1 H2 E0 E1 E2) as Hfly.
  assert (Hfin : finished (pending c)
                   (calls (trace c)
                    ++ [ReadAsDataURL child; ReadAsDataURL adult;
                        GenerateHuggingImage cd ad])
                   None (Some generation_failed_message) c').
  { unfold c'.
    replace (Invoke :: es0 ++ Settle i (FileRead r1) :: es1
             ++ Settle i (FileRead r2) :: es2
             ++ Settle i (ServiceAnswer (Reject e)) :: es3)
      with ((Invoke :: es0 ++ Settle i (FileRead r1) :: es1
             ++ Settle i (FileRead r2) :: es2)
            ++ Settle i (ServiceAnswer (Reject e)) :: es3)
      by (simpl; rewrite <- !app_assoc; simpl; rewrite <- !app_assoc; reflexivity).
    rewrite run_app, run_cons.
    apply finished_selections; [exact E3|].
    apply (in_flight_settle_failure _ _ _ _ _ e Hfly).
    exact (resume_awaiting_service cd ad (Reject e)). }
  destruct Hfin as (F1 & F2 & F3 & F4 & F5 & F6 & F7).
  assert (Hmsg : generation_failed_message <> []) by discriminate.
  assert (Hbtn : button_disabled (app c') = false).
  { unfold button_disabled.
    destruct (childPhoto (app c')); [|contradiction].
    destruct (adultPhoto (app c')); [assumption | contradiction]. }
  repeat (split; [assumption|]).
  split; [apply render_error; assumption|].
  split; [exact Hbtn|].
  destruct (childPhoto (app c')) as [child'|] eqn:Hc'; [|contradiction].
  destruct (adultPhoto (app c')) as [adult'|] eqn:Ha'; [|contradiction].
  exists child', adult'. rewrite (step_click_enabled c' Hbtn).
  apply in_flight_invoke; assumption.
Qed.

Lemma generate_client_rejects_witness :
  let c' := run both_selected_config
              [Invoke;
               Settle 0 (FileRead (Loaded (data_url sample_child)));
               Settle 0 (FileRead (Loaded (data_url sample_adult)));
               Settle 0 (ServiceAnswer (Reject (ServiceRejection (str "quota"))))] in
  fileToBase64_settled (Loaded (data_url sample_adult))
  = Resolve {| mimeType := str "image/jpeg"; data := str "/9j/4AAQSkZJRg==" |}
  /\ isLoading (app c') = false
  /\ error (app c') = Some generation_failed_message
  /\ generatedImage (app c') = None
  /\ button_disabled (app c') = false.
Proof.
  pose proof (generate_client_rejects both_selected_config sample_child sample_adult
                (Loaded (data_url sample_child)) (Loaded (data_url sample_adult))
                {| mimeType := str "image/png"; data := str "iVBORw0KGgoAAA==" |}
                {| mimeType := str "image/jpeg"; data := str "/9j/4AAQSkZJRg==" |}
                (ServiceRejection (str "quota")) [] [] [] []
                eq_refl eq_refl eq_refl eq_refl eq_refl) as H.
  cbv zeta in H. destruct H as (H1 & H2 & _ & H4 & _ & _ & H7 & _).
  cbv zeta. split; [reflexivity|].
  split; [exact H1|]. split; [exact H2|]. split; [exact H4 | exact H7].
Defined.

Lemma generate_after_encodings_aux (c : Config) (child adult : File)
  (es0 : list Event) :
  childPhoto (app c) = Some child -> adultPhoto (app c) = Some adult ->
  forallb is_selection es0 = true ->
  in_flight (pending c) (awaiting_child child adult)
    (calls (trace c) ++ [ReadAsDataURL child]) (run c (Invoke :: es0)).
Proof.
  intros Hc Ha E0. rewrite run_cons.
  apply in_flight_selections; [exact E0|].
  apply in_flight_invoke; assumption.
Qed.

(** C8: in an attempt of [handleGenerateClick] with both photos selected,
    the calls that leave the component are, in order: the read of the child
    photo; only if that read gives an image, the read of the adult photo;
    only if that one gives an image as well, [generateHuggingImage] with the
    two images. When a read fails or loads a string [fileToBase64] rejects,
    the attempt ends there with the failure message and the loading flag
    cleared, and nothing of it stays pending, so the service is not called.
    The user may select files at any point in between. *)
Theorem client_called_after_both_encodings (c : Config) (child adult : File)
  (o1 o2 : ReadOutcome) (es0 es1 es2 : list Event) :
  childPhoto (app c) = Some child -> adultPhoto (app c) = Some adult ->
  forallb is_selection (es0 ++ es1 ++ es2) = true ->
  let i := List.length (pending c) in
  let t := calls (trace c) in
  let c1 := run c (Invoke :: es0) in
  let c2 := run c1 (Settle i (FileRead o1) :: es1) in
  let c3 := run c2 (Settle i (FileRead o2) :: es2) in
  in_flight (pending c) (awaiting_child child adult) (t ++ [ReadAsDataURL child]) c1
  /\ match fileToBase64_settled o1 with
     | Reject _ =>
         finished (pending c) (t ++ [ReadAsDataURL child])
           None (Some generation_failed_message) c2
     | Resolve cd =>
         in_flight (pending c) (awaiting_adult cd adult)
           (t ++ [ReadAsDataURL child; ReadAsDataURL adult]) c2
         /\ match fileToBase64_settled o2 with
            | Reject _ =>
                finished (pending c)
                  (t ++ [ReadAsDataURL child; ReadAsDataURL adult])
                  None (Some generation_failed_message) c3
            | Resolve ad =>
                in_flight (pending c) (awaiting_service cd ad)
                  (t ++ [ReadAsDataURL child; ReadAsDataURL adult;
                         GenerateHuggingImage cd ad]) c3
            end
     end.
Proof.
  intros Hc Ha Hes i t c1 c2 c3.
  rewrite !forallb_app in Hes.
  apply andb_prop in Hes as [E0 Hes]. apply andb_prop in Hes as [E1 E2].
  assert (F1 : in_flight (pending c) (awaiting_child child adult)
                 (t ++ [ReadAsDataURL child]) c1)
    by (apply generate_after_encodings_aux; assumption).
  split; [exact F1|].
  pose proof (resume_awaiting_child child adult o1) as R1.
  destruct (fileToBase64_settled o1) as [cd|e1].
  - assert (F2 : in_flight (pending c) (awaiting_adult cd adult)
                   (t ++ [ReadAsDataURL child; ReadAsDataURL adult]) c2).
    { unfold c2. rewrite run_cons. apply in_flight_selections; [exact E1|].
      replace (t ++ [ReadAsDataURL child; ReadAsDataURL adult])
        with ((t ++ [ReadAsDataURL child]) ++ calls [ReadAsDataURL adult])
        by (rewrite <- app_assoc; reflexivity).
      eapply in_flight_settle_await;
        [exact F1 | exact R1 | apply run_sync_awaiting_adult]. }
    split; [exact F2|].
    pose proof (resume_awaiting_adult cd adult o2) as R2.
    destruct (fileToBase64_settled o2) as [ad|e2].
    + unfold c3. rewrite run_cons. apply in_flight_selections; [exact E2|].
      replace (t ++ [ReadAsDataURL child; ReadAsDataURL adult;
                     GenerateHuggingImage cd ad])
        with ((t ++ [ReadAsDataURL child; ReadAsDataURL adult])
              ++ calls [GenerateHuggingImage cd ad])
        by (rewrite <- app_assoc; reflexivity).
      eapply in_flight_settle_await;
        [exact F2 | exact R2 | apply run_sync_awaiting_service].
    + unfold c3. rewrite run_cons. apply finished_selections; [exact E2|].
      exact (in_flight_settle_failure _ _ _ _ _ e2 F2 R2).
  - unfold c2. rewrite run_cons. apply finished_selections; [exact E1|].
    exact (in_flight_settle_failure _ _ _ _ _ e1 F1 R1).
Qed.

Lemma client_called_after_both_encodings_witness :
  let c1 := run both_selected_config [Invoke] in
  let c2 := run c1 [Settle 0 (FileRead (Loaded (str "data:image/png;base64,AAA=")))] in
  let c3 := run c2 [Settle 0 (FileRead ReadFailed)] in
  childPhoto (app both_selected_config) = Some sample_child
  /\ fileToBase64_settled ReadFailed = Reject ReaderErrorEvent
  /\ calls (trace c3) = [ReadAsDataURL sample_child; ReadAsDataURL sample_adult]
  /\ error (app c3) = Some generation_failed_message
  /\ isLoading (app c3) = false
  /\ pending c3 = [].
Proof.
  pose proof (client_called_after_both_encodings both_selected_config
                sample_child sample_adult
                (Loaded (str "data:image/png;base64,AAA=")) ReadFailed
                [] [] [] eq_refl eq_refl eq_refl) as H.
  cbv zeta in H. destruct H as (_ & _ & H).
  destruct H as (H1 & H2 & H3 & H4 & _).
  cbv zeta. split; [reflexivity|]. split; [reflexivity|].
  split; [exact H2|]. split; [exact H4|]. split; [exact H3 | exact H1].
Defined.

(** ** File selection: [handleFileChange] *)

(** C7, as stated, fails: after an attempt that succeeded, selecting a new
    child photo leaves the generated image in place and on display; after an
    attempt that failed, it leaves the error message in place and on
    display. *)
Lemma selection_keeps_result_and_error :
  let attempt := [Invoke;
                  Settle 0 (FileRead (Loaded (data_url sample_child)));
                  Settle 0 (FileRead (Loaded (data_url sample_adult)))] in
  let select := InputChange ChildSlot (Some [sample_adult]) blob_url in
  let succeeded :=
    run both_selected_config
      (attempt ++ [Settle 0 (ServiceAnswer (Resolve sample_reference))]) in
  let failed :=
    run both_selected_config
      (attempt ++ [Settle 0 (ServiceAnswer (Reject (ServiceRejection (str "quota"))))]) in
  (generatedImage (app succeeded) = Some sample_reference
   /\ childPhotoPreview (app (step succeeded select)) = Some (blob_url sample_adult)
   /\ generatedImage (app (step succeeded select)) = Some sample_reference
   /\ render_result (app (step succeeded select))
      = [GeneratedImagePanel sample_reference])
  /\ (error (app failed) = Some generation_failed_message
      /\ childPhotoPreview (app (step failed select)) = Some (blob_url sample_adult)
      /\ error (app (step failed select)) = Some generation_failed_message
      /\ render_result (app (step failed select))
         = [ErrorText generation_failed_message]).
Proof. cbv zeta. repeat split; reflexivity. Qed.

(** C7, amended: a file selection, in any state, puts the new file in the
    photo cell of its uploader and the file's object URL in its preview
    cell, and changes nothing else: the other uploader's cells, the
    generated image, the error message, the loading flag and the pending
    attempts are as before, and so is the result panel. *)
Theorem selection_replaces_photo_and_preview (c : Config) (slot : Slot)
  (file : File) (files : list File) (createObjectURL : File -> jsstring) :
  let c' := step c (InputChange slot (Some (file :: files)) createObjectURL) in
  photo_of slot (app c') = Some file
  /\ preview_of slot (app c') = Some (createObjectURL file)
  /\ photo_of (other slot) (app c') = photo_of (other slot) (app c)
  /\ preview_of (other slot) (app c') = preview_of (other slot) (app c)
  /\ generatedImage (app c') = generatedImage (app c)
  /\ error (app c') = error (app c)
  /\ isLoading (app c') = isLoading (app c)
  /\ pending c' = pending c /\ trace c' = trace c
  /\ render_result (app c') = render_result (app c).
Proof. destruct slot; cbv zeta; repeat split; reflexivity. Qed.

(** ** Invariants *)

Lemma attempt_tail_awaiting_service (cd ad : ImageData) :
  attempt_tail (awaiting_service cd ad).
Proof.
  apply tail_generate. intros [v|e]; [apply tail_success | apply tail_failure].
Qed.

Lemma attempt_tail_awaiting_adult (cd : ImageData) (adult : File) :
  attempt_tail (awaiting_adult cd adult).
Proof.
  apply tail_read. intros o.
  destruct (fileToBase64_settled o);
    [apply attempt_tail_awaiting_service | apply tail_failure].
Qed.

Lemma attempt_tail_awaiting_child (child adult : File) :
  attempt_tail (awaiting_child child adult).
Proof.
  apply tail_read. intros o.
  destruct (fileToBase64_settled o);
    [apply attempt_tail_awaiting_adult | apply tail_failure].
Qed.

Lemma resume_tail (p k : Async unit) (r : Response) :
  attempt_tail p -> resume p r = Some k -> attempt_tail k.
Proof.
  intros Hp. destruct Hp as [file k0 H | a b k0 H | v | e];
    destruct r; simpl; intros E; try discriminate;
    injection E as <-; apply H.
Qed.

(** The three ways the synchronous run of an attempt goes. *)
Lemma run_sync_tail (k : Async unit) :
  attempt_tail k ->
  (exists call_made, forall s, run_sync k s = (s, [call_made], Some k))
  \/ (exists v, k = attempt_succeeds v)
  \/ (exists e, k = attempt_fails e).
Proof.
  intros [file k0 H | a b k0 H | v | e].
  - left. exists (ReadAsDataURL file). reflexivity.
  - left. exists (GenerateHuggingImage a b). reflexivity.
  - right. left. exists v. reflexivity.
  - right. right. exists e. reflexivity.
Qed.

Lemma Forall_replace_nth {A : Type} (P : A -> Prop) (i : nat) (l : list A)
  (x : option A) :
  Forall P l -> (forall y, x = Some y -> P y) -> Forall P (replace_nth i l x).
Proof.
  intros Hl Hx. revert i. induction Hl as [|a l Ha Hl IH]; intros i.
  - destruct i; constructor.
  - destruct i as [|i]; simpl.
    + destruct x as [y|]; [constructor; auto | assumption].
    + constructor; auto.
Qed.

Lemma both_selected_some (s : AppState) :
  both_selected s ->
  exists child adult, childPhoto s = Some child /\ adultPhoto s = Some adult.
Proof.
  intros [Hc Ha]. destruct (childPhoto s) as [child|]; [|contradiction].
  destruct (adultPhoto s) as [adult|]; [|contradiction]. eauto.
Qed.

Lemma not_both_selected (s : AppState) :
  ~ both_selected s -> childPhoto s = None \/ adultPhoto s = None.
Proof.
  unfold both_selected. intros H.
  destruct (childPhoto s); [|auto]. destruct (adultPhoto s); [|auto].
  elim H. split; discriminate.
Qed.

Lemma both_selected_dec (s : AppState) : both_selected s \/ ~ both_selected s.
Proof.
  unfold both_selected.
  destruct (childPhoto s), (adultPhoto s);
    try (left; split; discriminate); right; intros [H1 H2]; congruence.
Qed.

Lemma invariant_initial : invariant initial_config.
Proof. split; [constructor | discriminate]. Qed.

Lemma step_invariant (c : Config) (e : Event) :
  invariant c -> invariant (step c e).
Proof.
  intros [Hp Hl].
  assert (Hstart : invariant (start_generate c)).
  { destruct (both_selected_dec (app c)) as [Hb|Hb].
    - destruct (both_selected_some _ Hb) as (child & adult & Hc & Ha).
      change (start_generate c) with (step c Invoke).
      rewrite (step_invoke_both c child adult Hc Ha). split; cbn.
      + apply Forall_app. split; [exact Hp|].
        constructor; [apply attempt_tail_awaiting_child | constructor].
      + intros _. split; [reflexivity | exact Hb].
    - apply not_both_selected in Hb.
      change (start_generate c) with (step c Invoke).
      rewrite (step_invoke_missing c Hb). split; cbn; [exact Hp|].
      intros Hload. destruct (Hl Hload) as [_ [H1 H2]].
      destruct Hb; contradiction. }
  destruct e as [slot files mk | | | i r].
  - destruct (step_selection c slot files mk) as (E1 & E2 & E3 & E4 & E5 & E6 & E7).
    split; [rewrite E1; exact Hp|].
    rewrite E3, E4. intros Hload. destruct (Hl Hload) as [He [H1 H2]].
    split; [exact He | split; auto].
  - simpl. destruct (button_disabled (app c)); [split; assumption | exact Hstart].
  - exact Hstart.
  - simpl. destruct (nth_error (pending c) i) as [p|] eqn:Hnth; [|split; assumption].
    destruct (resume p r) as [k|] eqn:Hres; [|split; assumption].
    assert (Hk : attempt_tail k).
    { eapply resume_tail; [|exact Hres].
      eapply Forall_forall; [exact Hp | eapply nth_error_In; exact Hnth]. }
    destruct (run_sync_tail k Hk) as [[call_made Hrun] | [[v ->] | [e' ->]]].
    + rewrite Hrun. split; cbn; [|exact Hl].
      apply Forall_replace_nth; [exact Hp|]. intros y E. injection E as <-. exact Hk.
    + split; cbn; [|discriminate].
      apply Forall_replace_nth; [exact Hp | discriminate].
    + split; cbn; [|discriminate].
      apply Forall_replace_nth; [exact Hp | discriminate].
Qed.

Lemma run_invariant (es : list Event) (c : Config) :
  invariant c -> invariant (run c es).
Proof.
  revert c. induction es as [|e es IH]; intros c Hc; [exact Hc|].
  rewrite run_cons. apply IH, step_invariant, Hc.
Qed.

(** Photos are never cleared. *)
Lemma step_keeps_photos (c : Config) (e : Event) :
  invariant c ->
  (childPhoto (app c) <> None -> childPhoto (app (step c e)) <> None)
  /\ (adultPhoto (app c) <> None -> adultPhoto (app (step c e)) <> None).
Proof.
  intros [Hp Hl].
  assert (Hstart :
    (childPhoto (app c) <> None -> childPhoto (app (start_generate c)) <> None)
    /\ (adultPhoto (app c) <> None -> adultPhoto (app (start_generate c)) <> None)).
  { change (start_generate c) with (step c Invoke).
    destruct (both_selected_dec (app c)) as [Hb|Hb].
    - destruct (both_selected_some _ Hb) as (child & adult & Hc & Ha).
      rewrite (step_invoke_both c child adult Hc Ha). cbn. auto.
    - apply not_both_selected in Hb.
      rewrite (step_invoke_missing c Hb). cbn. auto. }
  destruct e as [slot files mk | | | i r].
  - destruct (step_selection c slot files mk) as (_ & _ & _ & _ & _ & E6 & E7).
    auto.
  - simpl. destruct (button_disabled (app c)); [auto | exact Hstart].
  - exact Hstart.
  - simpl. destruct (nth_error (pending c) i) as [p|] eqn:Hnth; [|auto].
    destruct (resume p r) as [k|] eqn:Hres; [|auto].
    assert (Hk : attempt_tail k).
    { eapply resume_tail; [|exact Hres].
      eapply Forall_forall; [exact Hp | eapply nth_error_In; exact Hnth]. }
    destruct (run_sync_tail k Hk) as [[call_made Hrun] | [[v ->] | [e' ->]]].
    + rewrite Hrun. cbn. auto.
    + cbn. auto.
    + cbn. auto.
Qed.

Lemma run_keeps_photos (es : list Event) (c : Config) :
  invariant c ->
  (childPhoto (app c) <> None -> childPhoto (app (run c es)) <> None)
  /\ (adultPhoto (app c) <> None -> adultPhoto (app (run c es)) <> None).
Proof.
  revert c. induction es as [|e es IH]; intros c Hc; [auto|].
  rewrite run_cons.
  destruct (step_keeps_photos c e Hc) as [H1 H2].
  destruct (IH (step c e) (step_invariant c e Hc)) as [H3 H4]. auto.
Qed.

Lemma page_invariant_initial : page_invariant initial_config.
Proof.
  split; [constructor|]. split; [discriminate|]. intros _. auto.
Qed.

Lemma step_page_invariant (c : Config) (e : Event) :
  from_page e = true -> page_invariant c -> page_invariant (step c e).
Proof.
  intros He (Hp & Hon & Hoff).
  destruct e as [slot files mk | | | i r]; try discriminate.
  - destruct (step_selection c slot files mk) as (E1 & E2 & E3 & E4 & E5 & E6 & E7).
    unfold page_invariant, both_selected. rewrite E1, E3, E4, E5.
    split; [exact Hp|]. split; [|exact Hoff].
    intros Hload. destruct (Hon Hload) as (H1 & H2 & H3 & H4 & H5). auto 10.
  - simpl. destruct (button_disabled (app c)) eqn:Hbtn;
      [split; [|split]; assumption|].
    unfold button_disabled in Hbtn.
    destruct (childPhoto (app c)) as [child|] eqn:Hc; [|discriminate].
    destruct (adultPhoto (app c)) as [adult|] eqn:Ha; [|discriminate].
    destruct (Hoff Hbtn) as [Hnil _].
    change (start_generate c) with (step c Invoke).
    rewrite (step_invoke_both c child adult Hc Ha). rewrite Hnil.
    split; cbn.
    + constructor; [apply attempt_tail_awaiting_child | constructor].
    + split; [|discriminate]. intros _.
      split; [eexists; reflexivity|]. split; [reflexivity|]. split; [reflexivity|].
      unfold both_selected. cbn. rewrite Hc, Ha. split; discriminate.
  - simpl. destruct (nth_error (pending c) i) as [p|] eqn:Hnth;
      [|split; [|split]; assumption].
    destruct (resume p r) as [k|] eqn:Hres; [|split; [|split]; assumption].
    destruct (isLoading (app c)) eqn:Hload.
    2:{ destruct (Hoff eq_refl) as [Hnil _]. rewrite Hnil in Hnth.
        destruct i; discriminate. }
    destruct (Hon eq_refl) as ([p0 Hone] & Herr & Hgen & Hboth).
    rewrite Hone in Hnth. destruct i as [|i]; [|destruct i; discriminate].
    injection Hnth as ->.
    assert (Hk : attempt_tail k).
    { eapply resume_tail; [|exact Hres].
      rewrite Hone in Hp. inversion Hp; assumption. }
    rewrite Hone.
    destruct (run_sync_tail k Hk) as [[call_made Hrun] | [[v ->] | [e' ->]]].
    + rewrite Hrun. split; cbn; [constructor; [exact Hk | constructor]|].
      rewrite Hload. split; [|discriminate]. intros _.
      split; [eexists; reflexivity | auto].
    + split; cbn; [constructor|]. split; [discriminate|].
      intros _. split; [reflexivity | left; exact Herr].
    + split; cbn; [constructor|]. split; [discriminate|].
      intros _. split; [reflexivity | right; exact Hgen].
Qed.

Lemma run_page_invariant (es : list Event) (c : Config) :
  forallb from_page es = true -> page_invariant c -> page_invariant (run c es).
Proof.
  revert c. induction es as [|e es IH]; intros c Hes Hc; [exact Hc|].
  simpl in Hes. apply andb_prop in Hes as [He Hes].
  rewrite run_cons. apply IH; [exact Hes|]. apply step_page_invariant; assumption.
Qed.

Lemma lifecycle_unique (s : AppState) :
  (isLoading s = true -> error s = None) ->
  exists l, holds l s /\ forall l', holds l' s -> l' = l.
Proof.
  intros H. destruct (isLoading s) eqn:Hload.
  - exists LPending. split; [exact Hload|].
    intros [] Hl'; simpl in Hl'; try reflexivity.
    + destruct Hl' as [E _]. congruence.
    + destruct Hl' as [E _]. congruence.
    + rewrite (H eq_refl) in Hl'. discriminate.
  - destruct (truthy (error s)) eqn:Herr.
    + exists LFailure. split; [exact Herr|].
      intros [] Hl'; simpl in Hl'; try reflexivity;
        try congruence; destruct Hl' as (_ & E & _); congruence.
    + destruct (truthy (generatedImage s)) eqn:Hgen.
      * exists LSuccess. split; [simpl; auto|].
        intros [] Hl'; simpl in Hl'; try reflexivity;
          try congruence; destruct Hl' as (_ & _ & E); congruence.
      * exists LNone. split; [simpl; auto|].
        intros [] Hl'; simpl in Hl'; try reflexivity;
          try congruence; destruct Hl' as (_ & _ & E); congruence.
Qed.

Lemma render_single (s : AppState) :
  (isLoading s = true -> error s = None) ->
  exists p, render_result s = [p].
Proof.
  intros H. unfold render_result. destruct (isLoading s).
  - rewrite (H eq_refl). simpl.
    destruct (generatedImage s) as [[|]|]; eexists; reflexivity.
  - destruct (error s) as [[|]|]; destruct (generatedImage s) as [[|]|];
      eexists; reflexivity.
Qed.

(** C9: after any sequence of events, exactly one of the four lifecycle
    states holds, and the result panel shows exactly one of its four
    blocks; when both photos are selected, a new run of
    [handleGenerateClick] leaves the component pending with the error
    message and the generated image cleared; and after events of the page
    alone, of the loading flag, the error message and the generated image
    at most one is set. State is observed between events: the setter calls
    of one synchronous run take effect together. *)
Theorem lifecycle_exclusive (es : list Event) :
  let c := run initial_config es in
  (exists l, holds l (app c) /\ forall l', holds l' (app c) -> l' = l)
  /\ (exists p, render_result (app c) = [p])
  /\ (both_selected (app c) ->
      holds LPending (app (step c Invoke))
      /\ error (app (step c Invoke)) = None
      /\ generatedImage (app (step c Invoke)) = None)
  /\ (forallb from_page es = true ->
      (isLoading (app c) = true ->
       error (app c) = None /\ generatedImage (app c) = None)
      /\ (error (app c) <> None -> generatedImage (app c) = None)).
Proof.
  intros c.
  destruct (run_invariant es initial_config invariant_initial) as [Hp Hl].
  fold c in Hp, Hl.
  assert (Hload : isLoading (app c) = true -> error (app c) = None)
    by (intros H; apply Hl; exact H).
  split; [apply lifecycle_unique; exact Hload|].
  split; [apply render_single; exact Hload|].
  split.
  - intros Hb. destruct (both_selected_some _ Hb) as (child & adult & Hc & Ha).
    destruct (in_flight_invoke c child adult Hc Ha) as (_ & _ & H3 & H4 & H5 & _).
    simpl. auto.
  - intros Hes.
    destruct (run_page_invariant es initial_config Hes page_invariant_initial)
      as (_ & Hon & Hoff).
    fold c in Hon, Hoff. split.
    + intros H. destruct (Hon H) as (_ & H1 & H2 & _). auto.
    + intros Herr. destruct (isLoading (app c)) eqn:E.
      * destruct (Hon eq_refl) as (_ & H1 & _). contradiction.
      * destruct (Hoff eq_refl) as [_ [H|H]]; [contradiction | exact H].
Qed.

Lemma lifecycle_exclusive_witness :
  let c := run initial_config
             [InputChange ChildSlot (Some [sample_child]) blob_url;
              InputChange AdultSlot (Some [sample_adult]) blob_url;
              ButtonClick;
              Settle 0 (FileRead ReadFailed)] in
  both_selected (app c)
  /\ render_result (app c) = [ErrorText generation_failed_message]
  /\ error (app (step c Invoke)) = None
  /\ generatedImage (app c) = None.
Proof.
  cbv zeta.
  assert (Hb : both_selected
                 (app (run initial_config
                         [InputChange ChildSlot (Some [sample_child]) blob_url;
                          InputChange AdultSlot (Some [sample_adult]) blob_url;
                          ButtonClick;
                          Settle 0 (FileRead ReadFailed)]))).
  { split; discriminate. }
  split; [exact Hb|].
  destruct (lifecycle_exclusive
              [InputChange ChildSlot (Some [sample_child]) blob_url;
               InputChange AdultSlot (Some [sample_adult]) blob_url;
               ButtonClick;
               Settle 0 (FileRead ReadFailed)]) as (_ & _ & H3 & H4).
  split; [reflexivity|].
  split; [apply (H3 Hb)|].
  apply (proj2 (H4 eq_refl)). discriminate.
Defined.

(** C10: in the runs of the component, a photo once selected stays
    selected: no event makes [childPhoto] or [adultPhoto] absent again, and
    a change event with no file changes nothing. So from a state with both
    photos selected on, a run of [handleGenerateClick] never takes the
    validation branch: it is the attempt, pending on the read of the child
    photo, with no error message. *)
Theorem selection_never_cleared (es0 es : list Event) :
  let c := run initial_config es0 in
  let c' := run c es in
  (childPhoto (app c) <> None -> childPhoto (app c') <> None)
  /\ (adultPhoto (app c) <> None -> adultPhoto (app c') <> None)
  /\ (forall slot createObjectURL,
        step c' (InputChange slot None createObjectURL) = c'
        /\ step c' (InputChange slot (Some []) createObjectURL) = c')
  /\ (both_selected (app c) ->
      exists child adult,
        childPhoto (app c') = Some child /\ adultPhoto (app c') = Some adult
        /\ handleGenerateClick (childPhoto (app c')) (adultPhoto (app c'))
           <> call setError (Some missing_photos_message)
        /\ in_flight (pending c') (awaiting_child child adult)
             (calls (trace c') ++ [ReadAsDataURL child]) (step c' Invoke)).
Proof.
  intros c c'.
  pose proof (run_invariant es0 initial_config invariant_initial) as Hinv.
  fold c in Hinv.
  destruct (run_keeps_photos es c Hinv) as [H1 H2]. fold c' in H1, H2.
  split; [exact H1|]. split; [exact H2|]. split.
  - intros slot mk. destruct c' as [s p t]. destruct slot; split; reflexivity.
  - intros [Hc Ha].
    destruct (both_selected_some (app c') (conj (H1 Hc) (H2 Ha)))
      as (child & adult & Hc' & Ha').
    exists child, adult. split; [exact Hc'|]. split; [exact Ha'|]. split.
    + rewrite Hc', Ha', handleGenerateClick_both. discriminate.
    + apply in_flight_invoke; assumption.
Qed.

Lemma selection_never_cleared_witness :
  let c := run initial_config
             [InputChange ChildSlot (Some [sample_child]) blob_url;
              InputChange AdultSlot (Some [sample_adult]) blob_url] in
  let c' := run c [InputChange ChildSlot None blob_url; ButtonClick;
                   Settle 0 (FileRead ReadFailed);
                   InputChange AdultSlot (Some []) blob_url] in
  both_selected (app c)
  /\ childPhoto (app c') <> None
  /\ adultPhoto (app c') <> None
  /\ error (app (step c' Invoke)) = None.
Proof.
  cbv zeta.
  destruct (selection_never_cleared
              [InputChange ChildSlot (Some [sample_child]) blob_url;
               InputChange AdultSlot (Some [sample_adult]) blob_url]
              [InputChange ChildSlot None blob_url; ButtonClick;
               Settle 0 (FileRead ReadFailed);
               InputChange AdultSlot (Some []) blob_url])
    as (H1 & H2 & _ & H4).
  assert (Hb : both_selected
                 (app (run initial_config
                         [InputChange ChildSlot (Some [sample_child]) blob_url;
                          InputChange AdultSlot (Some [sample_adult]) blob_url])))
    by (split; discriminate).
  split; [exact Hb|].
  split; [apply H1; discriminate|].
  split; [apply H2; discriminate|].
  destruct (H4 Hb) as (child & adult & _ & _ & _ & Hfly).
  destruct Hfly as (_ & _ & _ & He & _). exact He.
Defined.

(** ** Base64 and the round trip through [fileToBase64] *)

Lemma sextet_cases (P : N -> bool) :
  forallb P (List.map N.of_nat (seq 0 64)) = true ->
  forall n, (n < 64)%N -> P n = true.
Proof.
  intros H n Hn. rewrite forallb_forall in H. apply H.
  apply in_map_iff. exists (N.to_nat n).
  split; [apply N2Nat.id | apply in_seq; lia].
Qed.

Lemma base64_value_char (n : N) :
  (n < 64)%N -> base64_value (base64_char n) = Some n.
Proof.
  intros Hn.
  pose proof (sextet_cases
                (fun n => match base64_value (base64_char n) with
                          | Some m => N.eqb m n
                          | None => false
                          end) eq_refl n Hn) as H.
  cbv beta in H. destruct (base64_value (base64_char n)); [|discriminate].
  apply N.eqb_eq in H. congruence.
Qed.

Lemma base64_char_not_pad (n : N) :
  (n < 64)%N -> N.eqb (base64_char n) base64_pad = false.
Proof.
  intros Hn.
  pose proof (sextet_cases (fun n => negb (N.eqb (base64_char n) base64_pad))
                eq_refl n Hn) as H.
  cbv beta in H. apply negb_true_iff in H. exact H.
Qed.

Lemma base64_char_not_comma (n : N) :
  (n < 64)%N -> base64_char n <> comma.
Proof.
  intros Hn.
  pose proof (sextet_cases (fun n => negb (N.eqb (base64_char n) comma))
                eq_refl n Hn) as H.
  cbv beta in H. apply negb_true_iff, N.eqb_neq in H. exact H.
Qed.

Lemma div_glue (q r d : N) : (r < d -> (q * d + r) / d = q)%N.
Proof.
  intros H. rewrite N.div_add_l by lia. rewrite N.div_small by exact H. lia.
Qed.

Lemma mod_glue (q r d : N) : (r < d -> (q * d + r) mod d = r)%N.
Proof.
  intros H. rewrite N.add_comm, N.Div0.mod_add. apply N.mod_small, H.
Qed.

Lemma split_glue (x d : N) : (d <> 0 -> x / d * d + x mod d = x)%N.
Proof. intros H. rewrite N.mul_comm. symmetry. apply N.div_mod. exact H. Qed.

Lemma byte_lt_256 (b : byte) : (Byte.to_N b < 256)%N.
Proof. pose proof (Byte.to_N_bounded b). lia. Qed.

(** The four sextets of three bytes, and the bytes back. *)
Lemma sextets_bounds (x y z : N) :
  (x < 256 -> y < 256 -> z < 256 ->
   x / 4 < 64 /\ x mod 4 * 16 + y / 16 < 64
   /\ y mod 16 * 4 + z / 64 < 64 /\ z mod 64 < 64
   /\ x mod 4 * 16 < 64 /\ y mod 16 * 4 < 64)%N.
Proof.
  intros Hx Hy Hz.
  assert (x / 4 < 64)%N by (apply N.Div0.div_lt_upper_bound; lia).
  assert (y / 16 < 16)%N by (apply N.Div0.div_lt_upper_bound; lia).
  assert (z / 64 < 4)%N by (apply N.Div0.div_lt_upper_bound; lia).
  assert (x mod 4 < 4)%N by (apply N.mod_lt; lia).
  assert (y mod 16 < 16)%N by (apply N.mod_lt; lia).
  assert (z mod 64 < 64)%N by (apply N.mod_lt; lia).
  lia.
Qed.

Lemma sextets_first (x y : N) :
  (y < 256 -> x / 4 * 4 + (x mod 4 * 16 + y / 16) / 16 = x)%N.
Proof.
  intros Hy.
  assert (y / 16 < 16)%N by (apply N.Div0.div_lt_upper_bound; lia).
  rewrite div_glue by assumption. apply split_glue. lia.
Qed.

Lemma sextets_second (x y z : N) :
  (y < 256 -> z < 256 ->
   (x mod 4 * 16 + y / 16) mod 16 * 16 + (y mod 16 * 4 + z / 64) / 4 = y)%N.
Proof.
  intros Hy Hz.
  assert (y / 16 < 16)%N by (apply N.Div0.div_lt_upper_bound; lia).
  assert (z / 64 < 4)%N by (apply N.Div0.div_lt_upper_bound; lia).
  rewrite mod_glue, div_glue by assumption. apply split_glue. lia.
Qed.

Lemma sextets_third (y z : N) :
  (z < 256 -> (y mod 16 * 4 + z / 64) mod 4 * 64 + z mod 64 = z)%N.
Proof.
  intros Hz.
  assert (z / 64 < 4)%N by (apply N.Div0.div_lt_upper_bound; lia).
  rewrite mod_glue by assumption. apply split_glue. lia.
Qed.

Lemma list_ind3 {A : Type} (P : list A -> Prop) :
  P [] -> (forall a, P [a]) -> (forall a b, P [a; b]) ->
  (forall a b c l, P l -> P (a :: b :: c :: l)) ->
  forall l, P l.
Proof.
  intros H0 H1 H2 H3 l.
  assert (H : P l /\ (forall a, P (a :: l)) /\ (forall a b, P (a :: b :: l))).
  { induction l as [|x l (IH0 & IH1 & IH2)].
    - auto.
    - split; [apply IH1|]. split; [intros a; apply IH2|].
      intros a b. apply H3, IH0. }
  apply H.
Qed.

Lemma base64_decode_quad (c1 c2 c3 c4 : code_unit) (rest : jsstring)
  (v1 v2 v3 v4 : N) :
  base64_value c1 = Some v1 -> base64_value c2 = Some v2 ->
  base64_value c3 = Some v3 -> base64_value c4 = Some v4 ->
  N.eqb c3 base64_pad = false -> N.eqb c4 base64_pad = false ->
  base64_decode (c1 :: c2 :: c3 :: c4 :: rest)
  = match base64_decode rest with
    | Some tail =>
        match Byte.of_N (v1 * 4 + v2 / 16),
              Byte.of_N (v2 mod 16 * 16 + v3 / 4),
              Byte.of_N (v3 mod 4 * 64 + v4) with
        | Some a, Some b, Some c => Some (a :: b :: c :: tail)
        | _, _, _ => None
        end
    | None => None
    end.
Proof.
  intros E1 E2 E3 E4 P3 P4. cbn [base64_decode].
  rewrite E1, E2, E3, E4, P3, P4. reflexivity.
Qed.

(** Decoding undoes encoding. *)
Lemma base64_round_trip (bytes : list byte) :
  base64_decode (base64_encode bytes) = Some bytes.
Proof.
  induction bytes as [|a|a b|a b c rest IH] using list_ind3.
  - reflexivity.
  - cbn [base64_encode].
    destruct (sextets_bounds (Byte.to_N a) 0 0 (byte_lt_256 a) eq_refl eq_refl)
      as (B1 & _ & _ & _ & B5 & _).
    cbn [base64_decode].
    rewrite (base64_value_char _ B1), (base64_value_char _ B5).
    cbn [N.eqb base64_pad Pos.eqb andb is_nil option_map].
    replace (Byte.to_N a mod 4 * 16)%N with (Byte.to_N a mod 4 * 16 + 0 / 16)%N
      by (cbn; lia).
    rewrite sextets_first by reflexivity. rewrite Byte.of_to_N. reflexivity.
  - cbn [base64_encode].
    destruct (sextets_bounds (Byte.to_N a) (Byte.to_N b) 0
                (byte_lt_256 a) (byte_lt_256 b) eq_refl)
      as (B1 & B2 & _ & _ & _ & B6).
    cbn [base64_decode].
    rewrite (base64_value_char _ B1), (base64_value_char _ B2),
      (base64_value_char _ B6), (base64_char_not_pad _ B6).
    cbn [N.eqb base64_pad Pos.eqb andb is_nil option_map].
    rewrite sextets_first by apply byte_lt_256.
    replace (Byte.to_N b mod 16 * 4)%N with (Byte.to_N b mod 16 * 4 + 0 / 64)%N
      by (cbn; lia).
    rewrite sextets_second by (apply byte_lt_256 || reflexivity).
    rewrite !Byte.of_to_N. reflexivity.
  - cbn [base64_encode].
    destruct (sextets_bounds (Byte.to_N a) (Byte.to_N b) (Byte.to_N c)
                (byte_lt_256 a) (byte_lt_256 b) (byte_lt_256 c))
      as (B1 & B2 & B3 & B4 & _ & _).
    rewrite (base64_decode_quad _ _ _ _ _ _ _ _ _
               (base64_value_char _ B1) (base64_value_char _ B2)
               (base64_value_char _ B3) (base64_value_char _ B4)
               (base64_char_not_pad _ B3) (base64_char_not_pad _ B4)).
    rewrite IH.
    rewrite sextets_first by apply byte_lt_256.
    rewrite sextets_second by apply byte_lt_256.
    rewrite sextets_third by apply byte_lt_256.
    rewrite !Byte.of_to_N. reflexivity.
Qed.

Lemma pad_not_comma : base64_pad <> comma.
Proof. discriminate. Qed.

Lemma base64_encode_no_comma (bytes : list byte) :
  ~ In comma (base64_encode bytes).
Proof.
  induction bytes as [|a|a b|a b c rest IH] using list_ind3.
  - simpl. tauto.
  - cbn [base64_encode].
    destruct (sextets_bounds (Byte.to_N a) 0 0 (byte_lt_256 a) eq_refl eq_refl)
      as (B1 & _ & _ & _ & B5 & _).
    pose proof (base64_char_not_comma _ B1). pose proof (base64_char_not_comma _ B5).
    pose proof pad_not_comma. simpl. intuition congruence.
  - cbn [base64_encode].
    destruct (sextets_bounds (Byte.to_N a) (Byte.to_N b) 0
                (byte_lt_256 a) (byte_lt_256 b) eq_refl)
      as (B1 & B2 & _ & _ & _ & B6).
    pose proof (base64_char_not_comma _ B1). pose proof (base64_char_not_comma _ B2).
    pose proof (base64_char_not_comma _ B6).
    pose proof pad_not_comma. simpl. intuition congruence.
  - cbn [base64_encode].
    destruct (sextets_bounds (Byte.to_N a) (Byte.to_N b) (Byte.to_N c)
                (byte_lt_256 a) (byte_lt_256 b) (byte_lt_256 c))
      as (B1 & B2 & B3 & B4 & _ & _).
    pose proof (base64_char_not_comma _ B1). pose proof (base64_char_not_comma _ B2).
    pose proof (base64_char_not_comma _ B3). pose proof (base64_char_not_comma _ B4).
    simpl. intuition congruence.
Qed.

Lemma base64_encode_not_nil (bytes : list byte) :
  bytes <> [] -> base64_encode bytes <> [].
Proof.
  destruct bytes as [|a [|b [|c rest]]]; [contradiction | | |]; discriminate.
Qed.

Lemma lazy_before_semicolon (s post : jsstring) :
  Forall (fun c => c <> comma /\ dot c = true) s ->
  lazy_until_semicolon (s ++ semicolon :: post) = Some (before_semicolon s).
Proof.
  induction 1 as [|c s [_ Hdot] _ IH]; [reflexivity|].
  simpl. destruct (N.eqb c semicolon); [reflexivity|].
  rewrite Hdot, IH. reflexivity.
Qed.

Lemma before_semicolon_not_nil (s : jsstring) :
  s <> [] -> hd_error s <> Some semicolon -> before_semicolon s <> [].
Proof.
  destruct s as [|c s]; [contradiction|]. intros _ H. simpl in *.
  destruct (N.eqb_spec c semicolon) as [->|_]; [contradiction | discriminate].
Qed.

Lemma data_url_header (type : jsstring) :
  Forall (fun c => c <> comma /\ dot c = true) type ->
  regexp_match (str "data:" ++ type ++ str ";base64")
  = Some (before_semicolon type)
  /\ ~ In comma (str "data:" ++ type ++ str ";base64").
Proof.
  intros H. split.
  - change (str ";base64") with (semicolon :: str "base64").
    change (str "data:") with [100; 97; 116; 97; colon]%N.
    simpl.
    rewrite (lazy_before_semicolon _ _ H). reflexivity.
  - intros Hin. apply in_app_or in Hin as [Hin|Hin].
    + vm_compute in Hin. intuition discriminate.
    + apply in_app_or in Hin as [Hin|Hin].
      * rewrite Forall_forall in H. destruct (H _ Hin) as [Hc _]. congruence.
      * vm_compute in Hin. intuition discriminate.
Qed.

(** C6, as stated, fails: the empty file is a binary input, and
    [fileToBase64] rejects its data URL, [data:image/png;base64,], because
    the data segment is empty; no image is produced. *)
Lemma encode_rejects_empty_file :
  file_bytes empty_png = []
  /\ data_url empty_png = str "data:image/png;base64,"
  /\ fileToBase64_settled (Loaded (data_url empty_png))
     = Reject invalid_file_format.
Proof. repeat split; reflexivity. Qed.

(** C6, amended: for every file that is not empty and whose [type] is not
    empty, does not start with a semicolon and has no comma and no line
    terminator, [fileToBase64] resolves with an image whose [mimeType] is
    the type up to its first semicolon and whose [data], base64-decoded, is
    the content of the file. *)
Theorem encode_round_trip (file : File) :
  file_bytes file <> [] -> well_formed_type (file_type file) ->
  exists img,
    fileToBase64_settled (Loaded (data_url file)) = Resolve img
    /\ mimeType img = before_semicolon (file_type file)
    /\ data img = base64_encode (file_bytes file)
    /\ base64_decode (data img) = Some (file_bytes file).
Proof.
  intros Hbytes (Hne & Hhd & Hty).
  destruct (data_url_header (file_type file) Hty) as [Hmatch Hnocomma].
  exists {| mimeType := before_semicolon (file_type file);
            data := base64_encode (file_bytes file) |}.
  split; [|split; [reflexivity | split; [reflexivity | apply base64_round_trip]]].
  cbn [fileToBase64_settled]. unfold data_url.
  replace (str "data:" ++ file_type file ++ str ";base64,"
           ++ base64_encode (file_bytes file))
    with ((str "data:" ++ file_type file ++ str ";base64")
          ++ comma :: base64_encode (file_bytes file))
    by (rewrite <- !app_assoc; reflexivity).
  rewrite onload_by_segments.
  rewrite before_comma_app, after_comma_app by exact Hnocomma.
  cbn [option_map].
  rewrite (before_comma_id _ (base64_encode_no_comma (file_bytes file))).
  pose proof (base64_encode_not_nil _ Hbytes) as Hpayload.
  pose proof (before_semicolon_not_nil _ Hne Hhd) as Hmime.
  destruct (str "data:" ++ file_type file ++ str ";base64") as [|h0 h];
    [discriminate|].
  rewrite Hmatch.
  destruct (base64_encode (file_bytes file)) as [|d0 d]; [contradiction|].
  destruct (before_semicolon (file_type file)) as [|m0 m]; [contradiction|].
  reflexivity.
Qed.

Lemma encode_round_trip_witness :
  file_bytes sample_child <> []
  /\ well_formed_type (file_type sample_child)
  /\ exists img,
       fileToBase64_settled (Loaded (data_url sample_child)) = Resolve img
       /\ mimeType img = before_semicolon (file_type sample_child)
       /\ data img = base64_encode (file_bytes sample_child)
       /\ base64_decode (data img) = Some (file_bytes sample_child).
Proof.
  assert (Hbytes : file_bytes sample_child <> []) by discriminate.
  assert (Htype : well_formed_type (file_type sample_child)).
  { split; [discriminate|]. split; [discriminate|].
    repeat constructor; discriminate. }
  split; [exact Hbytes|]. split; [exact Htype|].
  exact (encode_round_trip sample_child Hbytes Htype).
Defined.

(** A comma in the [type] moves the split: the image is built, and its
    [data] is not the payload of the data URL. *)
Example encode_comma_in_type :
  data_url comma_type_file = str "data:a:b;x,y;base64,QUJD"
  /\ fileToBase64_settled (Loaded (data_url comma_type_file))
     = Resolve {| mimeType := str "a:b"; data := str "y;base64" |}
  /\ base64_decode (str "y;base64") = None.
Proof. repeat split; reflexivity. Qed.

Example round_trip_sample :
  base64_encode (file_bytes sample_child) = str "iVBORw0KGgoAAA=="
  /\ base64_decode (str "iVBORw0KGgoAAA==") = Some (file_bytes sample_child).
Proof. split; reflexivity. Qed.

(** * Further properties of the code *)

(** ** [fileToBase64]: what the image is made of *)

Lemma before_comma_app_comma (r tail : jsstring) :
  before_comma (r ++ comma :: tail) = before_comma r.
Proof.
  induction r as [|c r IH]; simpl; [reflexivity|].
  destruct (N.eqb c comma); [reflexivity | rewrite IH; reflexivity].
Qed.

Lemma before_comma_app_in (s x : jsstring) :
  In comma s -> before_comma (s ++ x) = before_comma s.
Proof.
  induction s as [|c s IH]; simpl; [tauto|].
  destruct (N.eqb_spec c comma) as [->|Hc]; [reflexivity|].
  intros [E|H]; [congruence | rewrite IH by exact H; reflexivity].
Qed.

Lemma after_comma_app_in (s x : jsstring) :
  In comma s ->
  after_comma (s ++ x) = option_map (fun r => r ++ x) (after_comma s).
Proof.
  induction s as [|c s IH]; simpl; [tauto|].
  destruct (N.eqb_spec c comma) as [->|Hc]; [reflexivity|].
  intros [E|H]; [congruence | apply IH; exact H].
Qed.

Lemma occurrence_in_header (pre m h : jsstring) (c : code_unit) :
  occurs_after pre m h -> In c m -> In c h.
Proof.
  intros [_ [post ->]] Hin. apply in_or_app. right. right.
  apply in_or_app. left. exact Hin.
Qed.

(** X1: an image [fileToBase64] resolves with has a [data] without comma,
    and a [mimeType] without comma, semicolon or line terminator, which
    stands in the text before the first comma between a colon and a
    semicolon. *)
Theorem fileToBase64_image_shape (result : jsstring) (img : ImageData) :
  fileToBase64_onload result = Resolve img ->
  ~ In comma (data img)
  /\ ~ In comma (mimeType img)
  /\ ~ In semicolon (mimeType img)
  /\ Forall (fun c => line_terminator c = false) (mimeType img)
  /\ exists pre post,
       before_comma result
       = pre ++ colon :: mimeType img ++ semicolon :: post.
Proof.
  rewrite onload_by_segments.
  destruct (before_comma result) as [|h0 h] eqn:Hh; [discriminate|].
  destruct (option_map before_comma (after_comma result)) as [[|d0 d]|] eqn:Hd;
    try discriminate.
  destruct (regexp_match (h0 :: h)) as [[|m0 m]|] eqn:Hm; try discriminate.
  intros E. injection E as <-. cbn [mimeType data].
  apply regexp_match_spec in Hm. destruct Hm as [pre [Hocc _]].
  assert (Hdata : ~ In comma (d0 :: d)).
  { destruct (after_comma result) as [r|]; [|discriminate].
    simpl in Hd. injection Hd as Hd. rewrite <- Hd. apply before_comma_no_comma. }
  assert (Hheader : ~ In comma (h0 :: h))
    by (rewrite <- Hh; apply before_comma_no_comma).
  split; [exact Hdata|].
  split; [intros Hin; apply Hheader; eapply occurrence_in_header; eauto|].
  destruct Hocc as [Htext [post Hpost]].
  split; [|split].
  - intros Hin. unfold mime_text in Htext. rewrite Forall_forall in Htext.
    destruct (Htext _ Hin) as [_ Hne]. congruence.
  - unfold mime_text in Htext. eapply Forall_impl; [|exact Htext].
    intros c [Hdot _]. unfold dot in Hdot. apply negb_true_iff in Hdot. exact Hdot.
  - exists pre, post. exact Hpost.
Qed.

Lemma fileToBase64_image_shape_witness :
  fileToBase64_onload (str "data:text/plain;charset=utf-8;base64,QQ==,x")
  = Resolve {| mimeType := str "text/plain"; data := str "QQ==" |}
  /\ ~ In comma (str "QQ==")
  /\ ~ In semicolon (str "text/plain").
Proof.
  assert (E : fileToBase64_onload (str "data:text/plain;charset=utf-8;base64,QQ==,x")
              = Resolve {| mimeType := str "text/plain"; data := str "QQ==" |})
    by reflexivity.
  destruct (fileToBase64_image_shape _ _ E) as (H1 & _ & H3 & _).
  split; [exact E|]. split; [exact H1 | exact H3].
Defined.

(** X2: once the string has a comma, whatever follows a further comma is
    never looked at: appending [,tail] changes nothing. *)
Theorem fileToBase64_ignores_later_segments (s tail : jsstring) :
  In comma s ->
  fileToBase64_onload (s ++ comma :: tail) = fileToBase64_onload s.
Proof.
  intros Hin. rewrite !onload_by_segments.
  rewrite before_comma_app_in, after_comma_app_in by exact Hin.
  destruct (after_comma s) as [r|] eqn:Hr.
  - cbn [option_map]. rewrite before_comma_app_comma. reflexivity.
  - exfalso. clear tail. induction s as [|c s IH]; simpl in *; [tauto|].
    destruct (N.eqb_spec c comma) as [->|Hc]; [discriminate|].
    destruct Hin as [E|Hin]; [congruence | auto].
Qed.

Lemma fileToBase64_ignores_later_segments_witness :
  In comma (str "data:image/png;base64,AAA")
  /\ fileToBase64_onload (str "data:image/png;base64,AAA" ++ comma :: str "rest,of,it")
     = Resolve {| mimeType := str "image/png"; data := str "AAA" |}.
Proof.
  assert (Hin : In comma (str "data:image/png;base64,AAA")).
  { apply (in_or_app (str "data:image/png;base64") (str ",AAA")).
    right. left. reflexivity. }
  split; [exact Hin|].
  rewrite (fileToBase64_ignores_later_segments _ (str "rest,of,it") Hin).
  reflexivity.
Defined.

Lemma regexp_match_skips (pre rest : jsstring) :
  ~ In colon pre ->
  regexp_match (pre ++ colon :: rest)
  = match lazy_until_semicolon rest with
    | Some group => Some group
    | None => regexp_match rest
    end.
Proof.
  induction pre as [|c pre IH]; intros Hpre.
  - reflexivity.
  - simpl. destruct (N.eqb_spec c colon) as [->|_]; [elim Hpre; left; reflexivity|].
    apply IH. intros H. apply Hpre. right. exact H.
Qed.

(** X3: neither the scheme nor the encoding marker of the data URL is
    checked. Whatever colon-free text [pre] stands before the first colon
    and whatever text [post] follows the semicolon, the string
    [pre:m;post,d] gives the image of MIME type [m] and data [d], for
    non-empty [m] and [d]; the payload is taken as it is, base64 or not. *)
Theorem fileToBase64_checks_no_scheme (pre m post d : jsstring) :
  ~ In colon pre -> mime_text m -> m <> [] ->
  ~ In comma (pre ++ colon :: m ++ semicolon :: post) ->
  d <> [] -> ~ In comma d ->
  fileToBase64_onload ((pre ++ colon :: m ++ semicolon :: post) ++ comma :: d)
  = Resolve {| mimeType := m; data := d |}.
Proof.
  intros Hpre Hm Hne Hheader Hd Hdc.
  rewrite onload_by_segments.
  rewrite before_comma_app, after_comma_app by exact Hheader.
  cbn [option_map]. rewrite (before_comma_id d Hdc).
  assert (Hmatch : regexp_match (pre ++ colon :: m ++ semicolon :: post) = Some m).
  { rewrite regexp_match_skips by exact Hpre.
    assert (L : lazy_until_semicolon (m ++ semicolon :: post) = Some m).
    { apply lazy_until_semicolon_spec. split; [exact Hm | exists post; reflexivity]. }
    rewrite L. reflexivity. }
  destruct (pre ++ colon :: m ++ semicolon :: post) as [|h0 h] eqn:Hh.
  { destruct pre; discriminate. }
  rewrite Hmatch. destruct d as [|d0 d]; [contradiction|].
  destruct m as [|m0 m]; [contradiction | reflexivity].
Qed.

Lemma fileToBase64_checks_no_scheme_witness :
  fileToBase64_onload (str "file:text/plain;charset=utf-8,hello world")
  = Resolve {| mimeType := str "text/plain"; data := str "hello world" |}.
Proof.
  apply (fileToBase64_checks_no_scheme (str "file") (str "text/plain")
           (str "charset=utf-8") (str "hello world")).
  - vm_compute. intuition discriminate.
  - unfold mime_text. repeat constructor; discriminate.
  - discriminate.
  - vm_compute. intuition discriminate.
  - discriminate.
  - vm_compute. intuition discriminate.
Defined.

(** X4: which of its two errors [fileToBase64] rejects with. The split is
    checked first: the error is "Invalid file format" exactly when the
    header is empty or the data segment is missing or empty, whatever the
    header holds; it is "Could not determine MIME type" exactly when both
    are non-empty and the leftmost [:<mime>;] occurrence of the header is
    missing or has an empty MIME type. *)
Theorem fileToBase64_error_choice (result : jsstring) :
  let header := before_comma result in
  let payload := option_map before_comma (after_comma result) in
  (fileToBase64_onload result = Reject invalid_file_format <->
   header = [] \/ truthy payload = false)
  /\ (fileToBase64_onload result = Reject no_mime_type <->
      header <> [] /\ truthy payload = true
      /\ ~ exists m, first_occurrence header m /\ m <> []).
Proof.
  cbv zeta. rewrite onload_by_segments.
  assert (Hdiff : invalid_file_format <> no_mime_type) by discriminate.
  destruct (before_comma result) as [|h0 h].
  { split; split; auto.
    - intros E. exfalso. apply Hdiff. congruence.
    - intros [H _]. contradiction. }
  destruct (option_map before_comma (after_comma result)) as [[|d0 d]|].
  1, 3: (split; split; auto;
         [ intros E; exfalso; apply Hdiff; congruence
         | intros (_ & H & _); discriminate ]).
  pose proof (no_mime_iff (h0 :: h)) as Hno.
  destruct (regexp_match (h0 :: h)) as [[|m0 m]|] eqn:Hm.
  - split; split.
    + intros E. exfalso. apply Hdiff. congruence.
    + intros [H|H]; discriminate.
    + intros _. split; [discriminate|]. split; [reflexivity|]. apply Hno. auto.
    + reflexivity.
  - split; split.
    + discriminate.
    + intros [H|H]; discriminate.
    + discriminate.
    + intros (_ & _ & H). apply Hno in H as [H|H]; discriminate.
  - split; split.
    + intros E. exfalso. apply Hdiff. congruence.
    + intros [H|H]; discriminate.
    + intros _. split; [discriminate|]. split; [reflexivity|]. apply Hno. auto.
    + reflexivity.
Qed.

(** ** The uploaders and the button *)

Lemma start_generate_keeps_cells (c : Config) :
  same_photos c (start_generate c).
Proof.
  change (start_generate c) with (step c Invoke).
  destruct (both_selected_dec (app c)) as [Hb|Hb].
  - destruct (both_selected_some _ Hb) as (child & adult & Hc & Ha).
    rewrite (step_invoke_both c child adult Hc Ha).
    intros []; split; reflexivity.
  - apply not_both_selected in Hb. rewrite (step_invoke_missing c Hb).
    intros []; split; reflexivity.
Qed.

(** Only a selection writes the photos and the previews. *)
Lemma step_keeps_cells (c : Config) (e : Event) :
  invariant c -> is_selection e = false -> same_photos c (step c e).
Proof.
  intros [Hp _] He.
  assert (Hrefl : same_photos c c) by (intros slot; split; reflexivity).
  destruct e as [slot files mk | | | i r]; try discriminate.
  - simpl. destruct (button_disabled (app c));
      [exact Hrefl | apply start_generate_keeps_cells].
  - apply start_generate_keeps_cells.
  - simpl. destruct (nth_error (pending c) i) as [p|] eqn:Hnth; [|exact Hrefl].
    destruct (resume p r) as [k|] eqn:Hres; [|exact Hrefl].
    assert (Hk : attempt_tail k).
    { eapply resume_tail; [|exact Hres].
      eapply Forall_forall; [exact Hp | eapply nth_error_In; exact Hnth]. }
    destruct (run_sync_tail k Hk) as [[call_made Hrun] | [[v ->] | [e' ->]]].
    + rewrite Hrun. exact Hrefl.
    + intros []; split; reflexivity.
    + intros []; split; reflexivity.
Qed.

Lemma step_paired_cells (Q : jsstring -> Prop) (c : Config) (e : Event) :
  invariant c ->
  (forall slot file files mk,
     e = InputChange slot (Some (file :: files)) mk -> Q (mk file)) ->
  paired_cells Q (app c) -> paired_cells Q (app (step c e)).
Proof.
  intros Hinv HQ Hcells.
  destruct (is_selection e) eqn:He.
  - destruct e as [slot files mk | | |]; try discriminate.
    destruct files as [[|file files]|]; try exact Hcells.
    specialize (HQ slot file files mk eq_refl).
    intros slot'. specialize (Hcells slot').
    destruct slot, slot'; simpl in *;
      try solve [right; exists file, (mk file); repeat split; auto];
      exact Hcells.
  - pose proof (step_keeps_cells c e Hinv He) as Hsame.
    intros slot. destruct (Hsame slot) as [E1 E2]. rewrite E1, E2. apply Hcells.
Qed.

Lemma run_paired_cells (Q : jsstring -> Prop) (es : list Event) (c : Config) :
  invariant c ->
  (forall slot file files mk,
     In (InputChange slot (Some (file :: files)) mk) es -> Q (mk file)) ->
  paired_cells Q (app c) -> paired_cells Q (app (run c es)).
Proof.
  revert c. induction es as [|e es IH]; intros c Hinv HQ Hcells; [exact Hcells|].
  rewrite run_cons. apply IH.
  - apply step_invariant, Hinv.
  - intros slot file files mk Hin. apply (HQ slot file files mk). right. exact Hin.
  - apply step_paired_cells; [exact Hinv | | exact Hcells].
    intros slot file files mk ->. apply (HQ slot file files mk). left. reflexivity.
Qed.

Lemma paired_cells_initial (Q : jsstring -> Prop) :
  paired_cells Q (app initial_config).
Proof. intros []; left; split; reflexivity. Qed.

(** X5: after any events, an uploader has a preview URL exactly when it has
    a photo: the two cells are written together and never cleared. *)
Theorem photo_and_preview_together (es : list Event) (slot : Slot) :
  let s := app (run initial_config es) in
  photo_of slot s = None <-> preview_of slot s = None.
Proof.
  intros s.
  pose proof (run_paired_cells (fun _ => True) es initial_config
                invariant_initial (fun _ _ _ _ _ => I)
                (paired_cells_initial _) slot) as H.
  fold s in H.
  destruct H as [[H1 H2] | (file & url & H1 & H2 & _)].
  - rewrite H1, H2. tauto.
  - rewrite H1, H2. split; discriminate.
Qed.

(** X6: when the object URLs the browser mints are not empty, an uploader
    shows the upload prompt exactly while it has no photo and the preview
    image from then on, and the button is enabled exactly when both
    uploaders show a preview and nothing is loading. *)
Theorem previews_follow_selection (es : list Event) :
  forallb mints_url es = true ->
  let s := app (run initial_config es) in
  (forall slot,
     (photo_of slot s = None ->
      uploader slot s = UploadPrompt (uploader_label slot))
     /\ (photo_of slot s <> None ->
         exists src,
           preview_of slot s = Some src
           /\ uploader slot s
              = PreviewImage src (uploader_label slot ++ str " preview")))
  /\ (button_disabled s = false <->
      isLoading s = false
      /\ forall slot, exists src,
           uploader slot s
           = PreviewImage src (uploader_label slot ++ str " preview")).
Proof.
  intros Hes s.
  assert (Hcells : paired_cells (fun url => url <> []) s).
  { apply run_paired_cells;
      [apply invariant_initial | | apply paired_cells_initial].
    intros slot file files mk Hin.
    rewrite forallb_forall in Hes. specialize (Hes _ Hin). simpl in Hes.
    destruct (mk file); [discriminate | discriminate]. }
  assert (Hview : forall slot,
            (photo_of slot s = None ->
             uploader slot s = UploadPrompt (uploader_label slot))
            /\ (photo_of slot s <> None ->
                exists src,
                  preview_of slot s = Some src
                  /\ uploader slot s
                     = PreviewImage src (uploader_label slot ++ str " preview"))).
  { intros slot. unfold uploader.
    destruct (Hcells slot) as [[H1 H2] | (file & url & H1 & H2 & Hurl)].
    - rewrite H1, H2. split; [reflexivity | intros H; contradiction].
    - rewrite H1, H2. split; [discriminate|]. intros _. exists url.
      split; [reflexivity|]. destruct url; [contradiction | reflexivity]. }
  split; [exact Hview|].
  unfold button_disabled.
  change (childPhoto s) with (photo_of ChildSlot s).
  change (adultPhoto s) with (photo_of AdultSlot s).
  split.
  - intros Hbtn.
    destruct (photo_of ChildSlot s) eqn:Hc; [|discriminate].
    destruct (photo_of AdultSlot s) eqn:Ha; [|discriminate].
    split; [exact Hbtn|]. intros slot.
    destruct (Hview slot) as [_ H].
    destruct slot; [rewrite Hc in H | rewrite Ha in H];
      (destruct H as (src & _ & E); [discriminate | exists src; exact E]).
  - intros [Hload Hshown].
    assert (Hsel : forall slot, photo_of slot s <> None).
    { intros slot Hnone. destruct (Hview slot) as [H _].
      destruct (Hshown slot) as [src E]. rewrite (H Hnone) in E. discriminate. }
    pose proof (Hsel ChildSlot) as Hc. pose proof (Hsel AdultSlot) as Ha.
    destruct (photo_of ChildSlot s); [|contradiction].
    destruct (photo_of AdultSlot s); [|contradiction]. exact Hload.
Qed.

Lemma previews_follow_selection_witness :
  let s := app (run initial_config
                  [InputChange ChildSlot (Some [sample_child]) blob_url;
                   InputChange AdultSlot None blob_url]) in
  uploader ChildSlot s
  = PreviewImage (str "blob:child.png") (str "Your Photo as a Child preview")
  /\ uploader AdultSlot s = UploadPrompt (str "Your Recent Photo")
  /\ button_disabled s = true.
Proof.
  pose proof (previews_follow_selection
                [InputChange ChildSlot (Some [sample_child]) blob_url;
                 InputChange AdultSlot None blob_url] eq_refl) as H.
  cbv zeta in H. destruct H as [Hview _].
  cbv zeta. split; [|split].
  - destruct (proj2 (Hview ChildSlot)) as (src & E1 & E2); [discriminate|].
    injection E1 as <-. exact E2.
  - apply (proj1 (Hview AdultSlot)). reflexivity.
  - reflexivity.
Defined.

(** X7: through the page, at most one attempt is in flight, and the loading
    flag is set, the button reads "Generating...", is disabled, and the
    result panel shows the spinner alone, exactly while one is. *)
Theorem one_attempt_from_page (es : list Event) :
  forallb from_page es = true ->
  let c := run initial_config es in
  List.length (pending c) <= 1
  /\ (isLoading (app c) = true <-> pending c <> [])
  /\ (button_label (app c) = str "Generating..." <-> pending c <> [])
  /\ (pending c <> [] ->
      button_disabled (app c) = true
      /\ render_result (app c) = [LoadingSpinner]).
Proof.
  intros Hes c.
  destruct (run_page_invariant es initial_config Hes page_invariant_initial)
    as (_ & Hon & Hoff).
  fold c in Hon, Hoff. unfold button_label.
  destruct (isLoading (app c)) eqn:Hload.
  - destruct (Hon eq_refl) as ([p Hp] & Herr & Hgen & Hboth).
    rewrite Hp. split; [simpl; lia|].
    split; [split; [discriminate | reflexivity]|].
    split; [split; [discriminate | reflexivity]|].
    intros _. split.
    + unfold button_disabled. destruct Hboth as [Hc Ha].
      destruct (childPhoto (app c)); [|contradiction].
      destruct (adultPhoto (app c)); [exact Hload | contradiction].
    + unfold render_result. rewrite Hload, Herr, Hgen. reflexivity.
  - destruct (Hoff eq_refl) as [Hnil _]. rewrite Hnil.
    split; [simpl; lia|].
    split; [split; [discriminate | intros H; elim H; reflexivity]|].
    split; [split; [discriminate | intros H; elim H; reflexivity]|].
    intros H. elim H. reflexivity.
Qed.

Lemma one_attempt_from_page_witness :
  let c := run initial_config
             [InputChange ChildSlot (Some [sample_child]) blob_url;
              InputChange AdultSlot (Some [sample_adult]) blob_url;
              ButtonClick; ButtonClick; ButtonClick] in
  List.length (pending c) <= 1
  /\ button_label (app c) = str "Generating...".
Proof.
  pose proof (one_attempt_from_page
                [InputChange ChildSlot (Some [sample_child]) blob_url;
                 InputChange AdultSlot (Some [sample_adult]) blob_url;
                 ButtonClick; ButtonClick; ButtonClick] eq_refl) as H.
  cbv zeta in H. destruct H as (H1 & _ & H3 & _).
  cbv zeta. split; [exact H1|]. apply H3. discriminate.
Defined.

(** ** The error message *)

Lemma step_error (c : Config) (e : Event) :
  invariant c ->
  error (app (step c e)) = error (app c)
  \/ error (app (step c e)) = None
  \/ error (app (step c e)) = Some generation_failed_message
  \/ (error (app (step c e)) = Some missing_photos_message
      /\ from_page e = false).
Proof.
  intros [Hp _].
  destruct e as [slot files mk | | | i r].
  - left. apply (step_selection c slot files mk).
  - simpl. destruct (button_disabled (app c)) eqn:Hbtn; [left; reflexivity|].
    unfold button_disabled in Hbtn.
    destruct (childPhoto (app c)) as [child|] eqn:Hc; [|discriminate].
    destruct (adultPhoto (app c)) as [adult|] eqn:Ha; [|discriminate].
    change (start_generate c) with (step c Invoke).
    rewrite (step_invoke_both c child adult Hc Ha). right. left. reflexivity.
  - destruct (both_selected_dec (app c)) as [Hb|Hb].
    + destruct (both_selected_some _ Hb) as (child & adult & Hc & Ha).
      rewrite (step_invoke_both c child adult Hc Ha). right. left. reflexivity.
    + apply not_both_selected in Hb. rewrite (step_invoke_missing c Hb).
      right. right. right. split; reflexivity.
  - simpl. destruct (nth_error (pending c) i) as [p|] eqn:Hnth; [|left; reflexivity].
    destruct (resume p r) as [k|] eqn:Hres; [|left; reflexivity].
    assert (Hk : attempt_tail k).
    { eapply resume_tail; [|exact Hres].
      eapply Forall_forall; [exact Hp | eapply nth_error_In; exact Hnth]. }
    destruct (run_sync_tail k Hk) as [[call_made Hrun] | [[v ->] | [e' ->]]].
    + rewrite Hrun. left. reflexivity.
    + left. reflexivity.
    + right. right. left. reflexivity.
Qed.

(** X8: the error cell only ever holds one of the two messages of the
    source, and through the page it never holds the validation message:
    the button is disabled while a photo is missing, so the first branch
    of [handleGenerateClick] is not reached from it. *)
Theorem error_messages (es : list Event) :
  let c := run initial_config es in
  (error (app c) = None
   \/ error (app c) = Some generation_failed_message
   \/ error (app c) = Some missing_photos_message)
  /\ (forallb from_page es = true ->
      error (app c) = None \/ error (app c) = Some generation_failed_message).
Proof.
  assert (Hgen : forall l c, invariant c ->
    (error (app c) = None \/ error (app c) = Some generation_failed_message
     \/ error (app c) = Some missing_photos_message) ->
    (error (app (run c l)) = None
     \/ error (app (run c l)) = Some generation_failed_message
     \/ error (app (run c l)) = Some missing_photos_message)).
  { induction l as [|e es' IH]; intros c Hinv H; [exact H|].
    rewrite run_cons. apply IH; [apply step_invariant, Hinv|].
    destruct (step_error c e Hinv) as [E | [E | [E | [E _]]]];
      rewrite E; auto. }
  assert (Hpage : forall l c, invariant c -> forallb from_page l = true ->
    (error (app c) = None \/ error (app c) = Some generation_failed_message) ->
    (error (app (run c l)) = None
     \/ error (app (run c l)) = Some generation_failed_message)).
  { induction l as [|e es' IH]; intros c Hinv Hes H; [exact H|].
    simpl in Hes. apply andb_prop in Hes as [He Hes].
    rewrite run_cons. apply IH; [apply step_invariant, Hinv | exact Hes |].
    destruct (step_error c e Hinv) as [E | [E | [E | [_ E]]]];
      [rewrite E; auto | rewrite E; auto | rewrite E; auto | congruence]. }
  intros c. split.
  - apply Hgen; [apply invariant_initial | left; reflexivity].
  - intros Hes. apply Hpage; [apply invariant_initial | exact Hes | left; reflexivity].
Qed.

Lemma error_messages_witness :
  let c := run initial_config
             [ButtonClick;
              InputChange ChildSlot (Some [sample_child]) blob_url;
              ButtonClick] in
  error (app c) = None \/ error (app c) = Some generation_failed_message.
Proof.
  apply (proj2 (error_messages
                  [ButtonClick;
                   InputChange ChildSlot (Some [sample_child]) blob_url;
                   ButtonClick])).
  reflexivity.
Defined.

(** ** While an attempt is pending *)

(** X9: while an attempt is in flight, file selections and clicks on the
    button leave it as it is: the button is disabled, so a click starts
    nothing, no call is made, and nothing but an answer ends the loading
    state; there is no cancellation and no timeout. *)
Theorem pending_attempt_ignores_clicks (earlier : list (Async unit))
  (p : Async unit) (t : list Effect) (c : Config) (es : list Event) :
  in_flight earlier p t c ->
  forallb is_selection_or_click es = true ->
  in_flight earlier p t (run c es)
  /\ button_disabled (app (run c es)) = true
  /\ button_label (app (run c es)) = str "Generating..."
  /\ render_result (app (run c es)) = [LoadingSpinner].
Proof.
  intros Hfly Hes.
  assert (Hdis : forall c', in_flight earlier p t c' ->
                            button_disabled (app c') = true).
  { intros c' (_ & _ & Hload & _ & _ & [Hc Ha]). unfold button_disabled.
    destruct (childPhoto (app c')); [|contradiction].
    destruct (adultPhoto (app c')); [exact Hload | contradiction]. }
  assert (Hrun : in_flight earlier p t (run c es)).
  { revert c Hfly. induction es as [|e es IH]; intros c Hfly; [exact Hfly|].
    simpl in Hes. apply andb_prop in Hes as [He Hes].
    rewrite run_cons. apply (IH Hes).
    destruct e as [slot files mk | | |]; try discriminate.
    - apply (in_flight_selections earlier p t [InputChange slot files mk] eq_refl c Hfly).
    - simpl. rewrite (Hdis c Hfly). exact Hfly. }
  split; [exact Hrun|]. split; [apply Hdis; exact Hrun|].
  destruct Hrun as (_ & _ & Hload & Herr & Hgen & _).
  unfold button_label, render_result. rewrite Hload, Herr, Hgen.
  split; reflexivity.
Qed.

Lemma pending_attempt_ignores_clicks_witness :
  let c := step both_selected_config ButtonClick in
  let c' := run c [ButtonClick;
                   InputChange ChildSlot (Some [sample_adult]) blob_url;
                   ButtonClick] in
  pending c' = pending c
  /\ calls (trace c') = [ReadAsDataURL sample_child]
  /\ isLoading (app c') = true.
Proof.
  assert (Hfly : in_flight [] (awaiting_child sample_child sample_adult)
                   [ReadAsDataURL sample_child]
                   (step both_selected_config ButtonClick)).
  { repeat split; try reflexivity; discriminate. }
  destruct (pending_attempt_ignores_clicks _ _ _ _
              [ButtonClick;
               InputChange ChildSlot (Some [sample_adult]) blob_url;
               ButtonClick] Hfly eq_refl) as ((H1 & H2 & H3 & _) & _).
  cbv zeta. split; [exact H1|]. split; [exact H2 | exact H3].
Defined.

(** ** How selections compose *)

(** X12: selections in the two uploaders commute, and a selection of a
    file overrides an earlier selection in the same uploader, photo and
    preview alike. *)
Theorem selections_compose (c : Config) (files1 files2 : option (list File))
  (mk1 mk2 : File -> jsstring) (file : File) (files : list File) :
  step (step c (InputChange ChildSlot files1 mk1)) (InputChange AdultSlot files2 mk2)
  = step (step c (InputChange AdultSlot files2 mk2)) (InputChange ChildSlot files1 mk1)
  /\ forall slot,
       step (step c (InputChange slot files1 mk1))
            (InputChange slot (Some (file :: files)) mk2)
       = step c (InputChange slot (Some (file :: files)) mk2).
Proof.
  split.
  - destruct files1 as [[|f1 fs1]|], files2 as [[|f2 fs2]|]; reflexivity.
  - intros []; destruct files1 as [[|f1 fs1]|]; reflexivity.
Qed.

(** ** Calls per trigger *)

Lemma count_app {A : Type} (f : A -> bool) (l l' : list A) :
  count f (l ++ l') = count f l + count f l'.
Proof. unfold count. rewrite filter_app, length_app. reflexivity. Qed.

Lemma budget_eq (ps : list (Async unit)) (r g r' g' : nat) :
  budget ps r g -> r = r' -> g = g' -> budget ps r' g'.
Proof. intros H -> ->. exact H. Qed.

Lemma budget_last (ps : list (Async unit)) (p : Async unit) (r g r' g' : nat) :
  budget ps r g -> attempt_stage p r' g' -> budget (ps ++ [p]) (r + r') (g + g').
Proof.
  intros Hps Hp. induction Hps as [|q ps rq gq r0 g0 Hq Hps IH]; simpl.
  - eapply budget_eq; [apply (budget_cons _ _ _ _ _ _ Hp budget_nil) | lia | lia].
  - eapply budget_eq; [apply (budget_cons _ _ _ _ _ _ Hq IH) | lia | lia].
Qed.

(** Taking the [i]-th attempt out of the budget, or putting another in its
    place. *)
Lemma budget_nth (ps : list (Async unit)) (r g : nat) :
  budget ps r g ->
  forall i p, nth_error ps i = Some p ->
  exists rp gp r0 g0,
    attempt_stage p rp gp /\ r = rp + r0 /\ g = gp + g0
    /\ budget (replace_nth i ps None) r0 g0
    /\ forall q rq gq, attempt_stage q rq gq ->
         budget (replace_nth i ps (Some q)) (rq + r0) (gq + g0).
Proof.
  induction 1 as [|q ps rq gq r0 g0 Hq Hps IH]; intros i p Hnth.
  - destruct i; discriminate.
  - destruct i as [|i]; simpl in Hnth.
    + injection Hnth as <-. exists rq, gq, r0, g0.
      repeat split; [exact Hq | exact Hps |].
      intros q' rq' gq' Hq'. simpl. apply budget_cons; assumption.
    + destruct (IH i p Hnth) as (rp & gp & r1 & g1 & Hp & -> & -> & Hnone & Hsome).
      exists rp, gp, (rq + r1), (gq + g1).
      split; [exact Hp|]. split; [lia|]. split; [lia|]. split.
      * simpl. apply budget_cons; assumption.
      * intros q' rq' gq' Hq'. simpl.
        eapply budget_eq;
          [apply (budget_cons _ _ _ _ _ _ Hq (Hsome q' rq' gq' Hq')) | lia | lia].
Qed.

(** An answer moves an attempt one stage on, with the call of that stage,
    or ends it. *)
Lemma attempt_stage_step (p k : Async unit) (r : Response) (rp gp : nat) :
  attempt_stage p rp gp -> resume p r = Some k ->
  (exists call_made rk gk,
      attempt_stage k rk gk
      /\ (forall s, run_sync k s = (s, [call_made], Some k))
      /\ count is_read [call_made] + rk = rp
      /\ count is_generate [call_made] + gk = gp)
  \/ (exists v, k = attempt_succeeds v)
  \/ (exists e, k = attempt_fails e).
Proof.
  intros Hp Hres. destruct Hp as [child adult | cd adult | cd ad].
  - destruct r as [o|o]; [|discriminate].
    rewrite resume_awaiting_child in Hres. injection Hres as <-.
    destruct (fileToBase64_settled o) as [cd|e].
    + left. exists (ReadAsDataURL adult), 0, 1.
      split; [constructor|]. split; [apply run_sync_awaiting_adult|].
      split; reflexivity.
    + right. right. exists e. reflexivity.
  - destruct r as [o|o]; [|discriminate].
    rewrite resume_awaiting_adult in Hres. injection Hres as <-.
    destruct (fileToBase64_settled o) as [ad|e].
    + left. exists (GenerateHuggingImage cd ad), 0, 0.
      split; [constructor|]. split; [apply run_sync_awaiting_service|].
      split; reflexivity.
    + right. right. exists e. reflexivity.
  - destruct r as [o|o]; [discriminate|].
    rewrite resume_awaiting_service in Hres. injection Hres as <-.
    destruct o as [v|e]; [right; left; exists v | right; right; exists e];
      reflexivity.
Qed.

Lemma within_budget_weaken (n m : nat) (c : Config) :
  within_budget n c -> n <= m -> within_budget m c.
Proof.
  intros (r & g & Hb & Hr & Hg) Hle. exists r, g. split; [exact Hb|]. lia.
Qed.

Lemma start_generate_within_budget (n : nat) (c : Config) :
  within_budget n c -> within_budget (S n) (start_generate c).
Proof.
  intros (r & g & Hb & Hr & Hg).
  change (start_generate c) with (step c Invoke).
  destruct (both_selected_dec (app c)) as [Hsel|Hsel].
  - destruct (both_selected_some _ Hsel) as (child & adult & Hc & Ha).
    rewrite (step_invoke_both c child adult Hc Ha). cbv zeta.
    exists (r + 1), (g + 1). cbn [pending trace].
    split; [apply budget_last; [exact Hb | constructor]|].
    rewrite !count_app. cbn. lia.
  - apply not_both_selected in Hsel. rewrite (step_invoke_missing c Hsel).
    cbv zeta. exists r, g. cbn [pending trace].
    split; [exact Hb|]. rewrite !count_app. cbn. lia.
Qed.

Lemma step_within_budget (n : nat) (c : Config) (e : Event) :
  within_budget n c ->
  within_budget (n + count is_trigger [e]) (step c e).
Proof.
  intros Hw.
  destruct e as [slot files mk | | | i r].
  - destruct Hw as (r & g & Hb & Hr & Hg). exists r, g.
    destruct (step_selection c slot files mk) as (E1 & E2 & _).
    rewrite E1, E2. split; [exact Hb|]. cbn. lia.
  - replace (n + count is_trigger [ButtonClick]) with (S n) by (cbn; lia).
    simpl. destruct (button_disabled (app c)).
    + apply (within_budget_weaken n); [exact Hw | lia].
    + apply start_generate_within_budget, Hw.
  - replace (n + count is_trigger [Invoke]) with (S n) by (cbn; lia).
    apply start_generate_within_budget, Hw.
  - replace (n + count is_trigger [Settle i r]) with n by (cbn; lia).
    simpl. destruct (nth_error (pending c) i) as [p|] eqn:Hnth; [|exact Hw].
    destruct (resume p r) as [k|] eqn:Hres; [|exact Hw].
    destruct Hw as (rt & g & Hb & Hr & Hg).
    destruct (budget_nth _ _ _ Hb i p Hnth)
      as (rp & gp & r0 & g0 & Hp & -> & -> & Hnone & Hsome).
    destruct (attempt_stage_step p k r rp gp Hp Hres)
      as [(call_made & rk & gk & Hk & Hrun & Er & Eg) | [[v ->] | [e' ->]]].
    + rewrite Hrun. exists (rk + r0), (gk + g0). cbn [pending trace].
      split; [apply Hsome, Hk|]. rewrite !count_app. lia.
    + exists r0, g0. cbn [run_sync attempt_succeeds pending trace].
      split; [exact Hnone|]. rewrite !count_app. cbn. lia.
    + exists r0, g0. cbn [run_sync attempt_fails pending trace].
      split; [exact Hnone|]. rewrite !count_app. cbn. lia.
Qed.

Lemma run_within_budget (es : list Event) (n : nat) (c : Config) :
  within_budget n c -> within_budget (n + count is_trigger es) (run c es).
Proof.
  revert n c. induction es as [|e es IH]; intros n c Hw.
  - apply (within_budget_weaken n); [exact Hw | cbn; lia].
  - rewrite run_cons.
    replace (n + count is_trigger (e :: es))
      with ((n + count is_trigger [e]) + count is_trigger es)
      by (change (e :: es) with ([e] ++ es); rewrite count_app; lia).
    apply IH, step_within_budget, Hw.
Qed.

(** X10: nothing is retried. After any events, the calls of
    [generateHuggingImage] are at most as many as the clicks and direct
    calls of the handler, and the file reads at most twice as many. *)
Theorem calls_per_trigger (es : list Event) :
  let c := run initial_config es in
  count is_generate (trace c) <= count is_trigger es
  /\ count is_read (trace c) <= 2 * count is_trigger es.
Proof.
  intros c.
  assert (H0 : within_budget 0 initial_config).
  { exists 0, 0. split; [constructor | split; cbn; lia]. }
  destruct (run_within_budget es 0 initial_config H0) as (r & g & _ & Hr & Hg).
  fold c in Hr, Hg. simpl in Hr, Hg. lia.
Qed.

(** ** Selections and answers act on different cells *)

Lemma same_results_refl (c : Config) : same_results c c.
Proof. repeat split; reflexivity. Qed.

Lemma same_photos_refl (c : Config) : same_photos c c.
Proof. intros slot. split; reflexivity. Qed.

Lemma step_answer_same_results (c1 c2 : Config) (i : nat) (r : Response) :
  Forall attempt_tail (pending c1) -> same_results c2 c1 ->
  same_results (step c2 (Settle i r)) (step c1 (Settle i r)).
Proof.
  intros Hp (E1 & E2 & E3 & E4 & E5). simpl. rewrite E1.
  destruct (nth_error (pending c2) i) as [p|] eqn:Hnth;
    [|repeat split; assumption].
  destruct (resume p r) as [k|] eqn:Hres; [|repeat split; assumption].
  assert (Hk : attempt_tail k).
  { eapply resume_tail; [|exact Hres].
    rewrite E1 in Hp.
    eapply Forall_forall; [exact Hp | eapply nth_error_In; exact Hnth]. }
  destruct (run_sync_tail k Hk) as [[call_made Hrun] | [[v ->] | [e' ->]]].
  - rewrite !Hrun. unfold same_results. cbn [app pending trace].
    rewrite !calls_app, E2. auto.
  - unfold same_results. cbn -[calls]. rewrite !calls_app, E2. auto.
  - unfold same_results. cbn -[calls]. rewrite !calls_app, E2. auto.
Qed.

Lemma step_selection_same_photos (c1 c2 : Config) (slot : Slot)
  (files : option (list File)) (mk : File -> jsstring) :
  same_photos c2 c1 ->
  same_photos (step c2 (InputChange slot files mk))
              (step c1 (InputChange slot files mk)).
Proof.
  intros H slot'. destruct (H ChildSlot) as [Hc1 Hc2].
  destruct (H AdultSlot) as [Ha1 Ha2]. simpl in Hc1, Hc2, Ha1, Ha2.
  destruct files as [[|f fs]|], slot, slot'; simpl; auto.
Qed.

Lemma run_same_results (es : list Event) (c1 c2 : Config) :
  invariant c1 -> same_results c2 c1 ->
  forallb is_selection_or_answer es = true ->
  same_results (run c2 (filter is_answer es)) (run c1 es).
Proof.
  revert c1 c2. induction es as [|e es IH]; intros c1 c2 Hinv Hsame Hes;
    [exact Hsame|].
  simpl in Hes. apply andb_prop in Hes as [He Hes].
  destruct e as [slot files mk | | | i r]; try discriminate.
  - simpl filter. rewrite run_cons.
    apply IH; [apply step_invariant, Hinv | | exact Hes].
    destruct (step_selection c1 slot files mk) as (E1 & E2 & E3 & E4 & E5 & _).
    destruct Hsame as (S1 & S2 & S3 & S4 & S5).
    unfold same_results. rewrite E1, E2, E3, E4, E5. auto.
  - simpl filter. rewrite !run_cons.
    apply IH; [apply step_invariant, Hinv | | exact Hes].
    apply step_answer_same_results; [apply Hinv | exact Hsame].
Qed.

Lemma run_same_photos (es : list Event) (c1 c2 : Config) :
  invariant c1 -> same_photos c2 c1 ->
  forallb is_selection_or_answer es = true ->
  same_photos (run c2 (filter is_selection es)) (run c1 es).
Proof.
  revert c1 c2. induction es as [|e es IH]; intros c1 c2 Hinv Hsame Hes;
    [exact Hsame|].
  simpl in Hes. apply andb_prop in Hes as [He Hes].
  destruct e as [slot files mk | | | i r]; try discriminate.
  - simpl filter. rewrite !run_cons.
    apply IH; [apply step_invariant, Hinv | | exact Hes].
    apply step_selection_same_photos, Hsame.
  - simpl filter. rewrite run_cons.
    apply IH; [apply step_invariant, Hinv | | exact Hes].
    pose proof (step_keeps_cells c1 (Settle i r) Hinv eq_refl) as Hkeep.
    intros slot. destruct (Hsame slot) as [H1 H2].
    destruct (Hkeep slot) as [K1 K2]. rewrite K1, K2. auto.
Qed.

(** X11: once the attempts are started, file selections and answers do not
    interfere. After a mix of the two, the photos and previews are those the
    selections alone give, and the pending attempts, the calls made, the
    loading flag, the error message and the generated image are those the
    answers alone give. An attempt works on the photos of its click,
    whatever is selected meanwhile. *)
Theorem selections_and_answers_independent (es0 es : list Event) :
  forallb is_selection_or_answer es = true ->
  let c := run initial_config es0 in
  same_photos (run c (filter is_selection es)) (run c es)
  /\ same_results (run c (filter is_answer es)) (run c es).
Proof.
  intros Hes c.
  pose proof (run_invariant es0 initial_config invariant_initial) as Hinv.
  fold c in Hinv. split.
  - apply run_same_photos; [exact Hinv | apply same_photos_refl | exact Hes].
  - apply run_same_results; [exact Hinv | apply same_results_refl | exact Hes].
Qed.

Lemma selections_and_answers_independent_witness :
  let c := run initial_config
             [InputChange ChildSlot (Some [sample_child]) blob_url;
              InputChange AdultSlot (Some [sample_adult]) blob_url;
              ButtonClick] in
  let mixed := run c [Settle 0 (FileRead (Loaded (data_url sample_child)));
                      InputChange ChildSlot (Some [sample_adult]) blob_url;
                      Settle 0 (FileRead (Loaded (data_url sample_adult)))] in
  childPhoto (app mixed) = Some sample_adult
  /\ calls (trace mixed)
     = [ReadAsDataURL sample_child; ReadAsDataURL sample_adult;
        GenerateHuggingImage
          {| mimeType := str "image/png"; data := str "iVBORw0KGgoAAA==" |}
          {| mimeType := str "image/jpeg"; data := str "/9j/4AAQSkZJRg==" |}].
Proof.
  destruct (selections_and_answers_independent
              [InputChange ChildSlot (Some [sample_child]) blob_url;
               InputChange AdultSlot (Some [sample_adult]) blob_url;
               ButtonClick]
              [Settle 0 (FileRead (Loaded (data_url sample_child)));
               InputChange ChildSlot (Some [sample_adult]) blob_url;
               Settle 0 (FileRead (Loaded (data_url sample_adult)))]
              eq_refl) as [Hphotos Hresults].
  cbv zeta. split.
  - destruct (Hphotos ChildSlot) as [H _]. exact H.
  - destruct Hresults as (_ & H & _). exact H.
Defined.
